(** * Version resolution of the Crowd image updater (update.go)

    A shallow embedding of [update.go]: the version key normaliser
    ([Version.MajorMinor]), the JSONP feed reader and per-feed selection
    ([fetchLatestTarVersions]), the merge of the feeds ([getVersions]) and the
    directory listing ([getDirs]), followed by the properties of the
    specification that concern them.

    Go strings are byte strings and are modelled as [string] (a sequence of
    8-bit characters); a [[]byte] is a [list Byte.byte]; a Go [int] index is a
    [Z] (no index here comes near the word size); [map[string]Package] is a
    [gmap string Package], and a Go result pair [(value, err)] is a pair whose
    second component is an [option error] ([None] is Go's [nil] error). *)

From Stdlib Require Import ZArith List Strings.Ascii Strings.String Strings.Byte.
From stdpp Require Import base option list strings gmap fin_maps.

Open Scope string_scope.
Open Scope list_scope.
Open Scope Z_scope.

(** ** Go library functions used by the program *)

Module GoStrings.

(** [strings.HasPrefix(s, prefix)]. *)
Fixpoint HasPrefix (s pre : string) : bool :=
  match pre, s with
  | EmptyString, _ => true
  | String _ _, EmptyString => false
  | String b pre', String a s' => Ascii.eqb a b && HasPrefix s' pre'
  end.

(** [strings.Contains(s, substr)]: [substr] occurs at some offset of [s]. *)
Fixpoint Contains (s substr : string) : bool :=
  HasPrefix s substr ||
  match s with
  | EmptyString => false
  | String _ s' => Contains s' substr
  end.

(** [strings.LastIndexByte(s, c)], scanning from offset [i] with the last
    offset found so far in [found]; [-1] when [c] does not occur. *)
Fixpoint LastIndexByte_from (s : string) (c : ascii) (i found : Z) : Z :=
  match s with
  | EmptyString => found
  | String a s' => LastIndexByte_from s' c (i + 1) (if Ascii.eqb a c then i else found)
  end.

Definition LastIndexByte (s : string) (c : ascii) : Z :=
  LastIndexByte_from s c 0 (-1).

(** The slice expression [s[lo:]]. *)
Definition slice_from (s : string) (lo : Z) : string :=
  String.substring (Z.to_nat lo) (String.length s - Z.to_nat lo) s.

End GoStrings.

Module GoPath.

(** The loop [for len(path) > 0 && path[len(path)-1] == '/'] of [path.Base],
    which drops every trailing slash. *)
Fixpoint stripTrailingSlashes (p : string) : string :=
  match p with
  | EmptyString => EmptyString
  | String c p' =>
      match stripTrailingSlashes p' with
      | EmptyString => if Ascii.eqb c "/" then EmptyString else String c EmptyString
      | r => String c r
      end
  end.

(** [path.Base]: the last element of a slash-separated path. *)
Definition Base (p : string) : string :=
  if String.eqb p "" then "."
  else
    let p1 := stripTrailingSlashes p in
    let i := GoStrings.LastIndexByte p1 "/" in
    let p2 := if 0 <=? i then GoStrings.slice_from p1 (i + 1) else p1 in
    if String.eqb p2 "" then "/" else p2.

End GoPath.

Module GoBytes.

#[global] Instance byte_eq_dec : EqDecision byte := Byte.byte_eq_dec.

(** [bytes.HasPrefix(s, prefix)]. *)
Fixpoint HasPrefix (s pre : list byte) : bool :=
  match pre, s with
  | [], _ => true
  | _ :: _, [] => false
  | b :: pre', a :: s' => Byte.eqb a b && HasPrefix s' pre'
  end.

(** [bytes.Index(s, sep)] scanning from offset [i]: the offset of the first
    occurrence of [sep], or [-1]. *)
Fixpoint Index_from (s sep : list byte) (i : Z) : Z :=
  if HasPrefix s sep then i
  else match s with
       | [] => -1
       | _ :: s' => Index_from s' sep (i + 1)
       end.

Definition Index (s sep : list byte) : Z := Index_from s sep 0.

(** [bytes.LastIndex(s, sep)]: the offset of the last occurrence of [sep],
    or [-1]. *)
Fixpoint LastIndex_from (s sep : list byte) (i found : Z) : Z :=
  let found' := if HasPrefix s sep then i else found in
  match s with
  | [] => found'
  | _ :: s' => LastIndex_from s' sep (i + 1) found'
  end.

Definition LastIndex (s sep : list byte) : Z := LastIndex_from s sep 0 (-1).

(** The slice expression [data[lo:hi]]; the program only evaluates it with
    [0 <= lo <= hi <= len(data)], where Go does not panic. *)
Definition slice (data : list byte) (lo hi : Z) : list byte :=
  take (Z.to_nat (hi - lo)) (drop (Z.to_nat lo) data).

End GoBytes.

Module GoRegexp.

(** [regexp.Split(s, n)] for a regular expression that matches exactly one
    character out of a class [sep], as [versionSeparator] does, and a limit
    [n > 0]: the text is cut at the first [n - 1] matches and the remainder
    is the last piece; the empty text gives the one empty piece.  [cuts] is
    the number of cuts still allowed and [cur] the piece being read. *)
Fixpoint Split_go (sep : ascii → bool) (cuts : nat) (cur s : string) : list string :=
  match s with
  | EmptyString => [cur]
  | String c s' =>
      match cuts with
      | O => [cur +:+ s]
      | S cuts' =>
          if sep c then cur :: Split_go sep cuts' EmptyString s'
          else Split_go sep cuts (cur +:+ String c EmptyString) s'
      end
  end.

Definition Split (sep : ascii → bool) (s : string) (n : nat) : list string :=
  match n with
  | O => []
  | S cuts => Split_go sep cuts EmptyString s
  end.

End GoRegexp.

Module GoTime.

(** A [time.Time] without monotonic reading, as [time.Parse] returns them:
    the instant, counted in seconds from the Unix epoch.  The feed's dates
    are whole days, so nanoseconds play no part. *)
Definition Time := Z.

(** [t.After(u)]: the instant [t] is strictly later than [u]. *)
Definition After (t u : Time) : bool := t >? u.

(** Days from 1970-01-01 to the civil date [y]-[m]-[d] (proleptic Gregorian
    calendar). *)
Definition daysFromCivil (y m d : Z) : Z :=
  let y' := if m <=? 2 then y - 1 else y in
  let era := y' / 400 in
  let yoe := y' - era * 400 in
  let doy := (153 * (if m >? 2 then m - 3 else m + 9) + 2) / 5 + d - 1 in
  let doe := yoe * 365 + yoe / 4 - yoe / 100 + doy in
  era * 146097 + doe - 719468.

(** [time.Date(y, m, d, 0, 0, 0, 0, time.UTC)]: midnight UTC of a day, which
    is what the layout [02-Jan-2006] parses to. *)
Definition Date (y m d : Z) : Time := daysFromCivil y m d * 86400.

End GoTime.

(** ** The data model of update.go *)

(** [type Version string] with its method [MajorMinor]. *)
Module Version.

Definition t := string.

(** [var versionSeparator = regexp.MustCompile(`(\.|-)`)]: one dot or one
    hyphen. *)
Definition versionSeparator (c : ascii) : bool :=
  Ascii.eqb c "." || Ascii.eqb c "-".

(** [func (v Version) MajorMinor() string]. *)
Definition MajorMinor (v : t) : string :=
  let parts := GoRegexp.Split versionSeparator v 3 in
  if Z.of_nat (length parts) <? 2 then "0.0"
  else match parts with
       | p0 :: p1 :: _ => p0 +:+ "." +:+ p1
       | _ => "0.0"
       end.

End Version.

(** The feed addresses (update.go 20-24). *)
Definition archiveUrl := "https://my.atlassian.com/download/feeds/archived/crowd.json".
Definition currentUrl := "https://my.atlassian.com/download/feeds/current/crowd.json".
Definition eapUrl := "https://my.atlassian.com/download/feeds/eap/crowd.json".

(** [type AtlassianTime time.Time]. *)
Definition AtlassianTime := GoTime.Time.

(** [type Package struct]. *)
Record Package := mkPackage {
  ZipURL : string;
  Version : Version.t;
  Released : AtlassianTime;
  Latest : bool
}.

(** Go [error] values: the one the program makes itself with [errors.New],
    and those handed back by the library calls, each with its text. *)
Inductive error :=
| errors_New (text : string)
| http_error (text : string)
| json_error (text : string)
| readdir_error (text : string).

(** [os.FileInfo], as far as [getDirs] looks at it. *)
Record FileInfo := mkFileInfo {
  Name : string;
  IsDir : bool
}.

(** The assignment [p.Latest = true] on the loop's copy of a package. *)
Definition setLatest (p : Package) : Package :=
  {| ZipURL := ZipURL p; Version := Version p; Released := Released p; Latest := true |}.

(** The condition of the [continue] in [fetchLatestTarVersions]
    (update.go 131-134), on the archive's file name. *)
Definition skipped (filename : string) : bool :=
  negb (GoStrings.Contains filename ".tar.gz")
  || (GoStrings.Contains filename "enterprise" && negb (GoStrings.Contains filename "standalone"))
  || GoStrings.Contains filename "cluster"
  || GoStrings.Contains filename "war".

(** The package filter: an archive is kept when the loop does not [continue]. *)
Definition relevant (archive : Package) : bool :=
  negb (skipped (GoPath.Base (ZipURL archive))).

(** One iteration of the loop over [archives] (update.go 129-142). *)
Definition selectStep (versions : gmap string Package) (archive : Package)
  : gmap string Package :=
  let filename := GoPath.Base (ZipURL archive) in
  if skipped filename then versions
  else
    let majmin := Version.MajorMinor (Version archive) in
    match versions !! majmin with
    | None => <[majmin := archive]> versions
    | Some v =>
        if GoTime.After (Released archive) (Released v)
        then <[majmin := archive]> versions
        else versions
    end.

(** The whole loop, from [versions = map[string]Package{}] on
    (update.go 128-142). *)
Definition latestTarVersions (archives : list Package) : gmap string Package :=
  foldl selectStep ∅ archives.

(** The inner loop of [getVersions] (update.go 96-101): every entry of the
    feed's map is written into [versions], marked when the feed is the
    latest one. *)
Definition mergeFeed (url latestFeed : string)
    (newVersions versions : gmap string Package) : gmap string Package :=
  map_fold (λ v p acc, <[v := if String.eqb url latestFeed then setLatest p else p]> acc)
           versions newVersions.

(** The feeds in the order [getVersions] processes them,
    [append(otherFeeds, latestFeed)] (update.go 91). *)
Definition feedOrder (latestFeed : string) (otherFeeds : list string) : list string :=
  otherFeeds ++ [latestFeed].

(** The loop of [getDirs] (update.go 78-82). *)
Definition collectDirs (entries : list FileInfo) : list string :=
  foldl (λ dirs entry,
           if IsDir entry && negb (GoStrings.HasPrefix (Name entry) ".")
           then dirs ++ [Name entry] else dirs)
        [] entries.

Section Program.

(** The outside world: what [http.Get] followed by [ioutil.ReadAll] yields
    for a URL, what [json.Unmarshal] into a [[]Package] yields for a text
    (dates go through [AtlassianTime.UnmarshalJSON]), and what
    [ioutil.ReadDir] yields for a path.  A failure carries its text. *)
Variable http_Get : string → string + list byte.
Variable json_Unmarshal : list byte → string + list Package.
Variable ioutil_ReadDir : string → string + list FileInfo.

(** [func getDirs(path string) (dirs []string, err error)]. *)
Definition getDirs (path : string) : list string * option error :=
  match ioutil_ReadDir "." with
  | inl msg => ([], Some (readdir_error msg))
  | inr entries => (collectDirs entries, None)
  end.

(** [func fetchLatestTarVersions(url string)
      (versions map[string]Package, err error)]; [None] is the nil map. *)
Definition fetchLatestTarVersions (url : string)
  : option (gmap string Package) * option error :=
  match http_Get url with
  | inl msg => (None, Some (http_error msg))
  | inr data =>
      let start := GoBytes.Index data [x28] in
      let end_ := GoBytes.LastIndex data [x29] in
      if negb ((end_ >? start) && (start >? -1))
      then (None, Some (errors_New "error in jsonp content"))
      else
        match json_Unmarshal (GoBytes.slice data (start + 1) end_) with
        | inl msg => (None, Some (json_error msg))
        | inr archives => (Some (latestTarVersions archives), None)
        end
  end.

(** The loop over the feeds of [getVersions] (update.go 91-102); ranging
    over a nil map does nothing. *)
Fixpoint getVersions_loop (latestFeed : string) (urls : list string)
    (versions : gmap string Package)
  : option (gmap string Package) * option error :=
  match urls with
  | [] => (Some versions, None)
  | url :: urls' =>
      match fetchLatestTarVersions url with
      | (_, Some err) => (None, Some err)
      | (newVersions, None) =>
          getVersions_loop latestFeed urls'
            (mergeFeed url latestFeed (default ∅ newVersions) versions)
      end
  end.

(** [func getVersions(latestFeed string, otherFeeds ...string)
      (versions map[string]Package, err error)]. *)
Definition getVersions (latestFeed : string) (otherFeeds : list string)
  : option (gmap string Package) * option error :=
  getVersions_loop latestFeed (feedOrder latestFeed otherFeeds) ∅.

End Program.

(** ** Vocabulary of the specification *)

(** [sub] occurs somewhere in [s]. *)
Definition substringOf (sub s : string) : Prop :=
  ∃ pre post, s = pre +:+ sub +:+ post.

(** No dot and no hyphen occurs in [s]. *)
Fixpoint sepFree (s : string) : bool :=
  match s with
  | EmptyString => true
  | String c s' => negb (Version.versionSeparator c) && sepFree s'
  end.

(** No slash occurs in [s]. *)
Fixpoint slashFree (s : string) : bool :=
  match s with
  | EmptyString => true
  | String c s' => negb (Ascii.eqb c "/") && slashFree s'
  end.

(** The byte [b] occurs in [data] at offset [i] and nowhere before. *)
Definition firstAt (b : byte) (data : list byte) (i : nat) : Prop :=
  data !! i = Some b ∧ ∀ k, (k < i)%nat → data !! k ≠ Some b.

(** The byte [b] occurs in [data] at offset [j] and nowhere after. *)
Definition lastAt (b : byte) (data : list byte) (j : nat) : Prop :=
  data !! j = Some b ∧ ∀ k, (j < k)%nat → data !! k ≠ Some b.

(** The error of a feed whose text is not wrapped in a call. *)
Definition jsonpError : error := errors_New "error in jsonp content".

(** What holds of every entry of a resolved mapping: it is filed under the
    key of its own version and its archive passed the filter. *)
Definition entryOk (key : string) (p : Package) : Prop :=
  key = Version.MajorMinor (Version p) ∧ relevant p = true.

(** Among the records [l1 ++ p :: l2] of a feed, [p] is the first of the
    most recently released candidates for the key [k]: it passes the filter,
    has key [k], is released strictly after every candidate for [k] before it
    and not before any candidate for [k] after it. *)
Definition firstLatest (k : string) (l1 : list Package) (p : Package)
    (l2 : list Package) : Prop :=
  relevant p = true ∧ Version.MajorMinor (Version p) = k ∧
  (∀ q, q ∈ l1 → relevant q = true → Version.MajorMinor (Version q) = k →
        Released q < Released p) ∧
  (∀ q, q ∈ l2 → relevant q = true → Version.MajorMinor (Version q) = k →
        Released q ≤ Released p).

(** The feed at [url] is served, is wrapped, and decodes to [archives]. *)
Definition feedRecords (http_Get : string → string + list byte)
    (json_Unmarshal : list byte → string + list Package)
    (url : string) (archives : list Package) : Prop :=
  ∃ pre payload post,
    http_Get url = inr (pre ++ x28 :: payload ++ x29 :: post) ∧
    (x28 ∉ pre) ∧ (x29 ∉ post) ∧ json_Unmarshal payload = inr archives.

(** The normaliser as section 4.1 of the specification words it: the pieces
    are separated by runs of dots and hyphens, a whole run counting as one
    separator.  [skipping] tells that the run of the last cut is still being
    read. *)
Fixpoint splitRuns (cuts : nat) (skipping : bool) (cur s : string) : list string :=
  match s with
  | EmptyString => [cur]
  | String c s' =>
      if Version.versionSeparator c && skipping then splitRuns cuts true cur s'
      else match cuts with
           | O => [cur +:+ s]
           | S cuts' =>
               if Version.versionSeparator c then cur :: splitRuns cuts' true EmptyString s'
               else splitRuns cuts false (cur +:+ String c EmptyString) s'
           end
  end.

Definition MajorMinor_by_runs (v : string) : string :=
  match splitRuns 2 false EmptyString v with
  | p0 :: p1 :: _ => p0 +:+ "." +:+ p1
  | _ => "0.0"
  end.

(** No two separators stand next to each other in [s]. *)
Fixpoint noAdjacentSeps (s : string) : bool :=
  match s with
  | EmptyString => true
  | String c s' =>
      match s' with
      | String c' _ => negb (Version.versionSeparator c && Version.versionSeparator c')
      | EmptyString => true
      end && noAdjacentSeps s'
  end.

(** The directory names section 4.5 asks for: the immediate subdirectories of
    [path] itself whose name does not start with a dot. *)
Definition subdirsOf (ReadDir : string → string + list FileInfo) (path : string)
  : list string * option error :=
  match ReadDir path with
  | inl msg => ([], Some (readdir_error msg))
  | inr entries =>
      (Name <$> filter (λ e, IsDir e = true ∧ GoStrings.HasPrefix (Name e) "." = false) entries,
       None)
  end.

(** ** A concrete world for the examples *)

Module Demo.

Definition binary (file : string) : string :=
  "https://www.atlassian.com/software/crowd/downloads/binary/" +:+ file.

(** The text of a feed: a JSON array of records inside [downloads(...)]. *)
Definition dq : string := String (ascii_of_nat 34) EmptyString.
Definition jsonString (s : string) : string := dq +:+ s +:+ dq.
Definition jsonRecord (zipUrl version released : string) : string :=
  "{" +:+ jsonString "zipUrl" +:+ ":" +:+ jsonString zipUrl +:+ ","
      +:+ jsonString "version" +:+ ":" +:+ jsonString version +:+ ","
      +:+ jsonString "released" +:+ ":" +:+ jsonString released +:+ "}".
Definition jsonArray (records : list string) : string :=
  "[" +:+ String.concat "," records +:+ "]".
Definition jsonp (payload : string) : list byte :=
  list_byte_of_string ("downloads(" +:+ payload +:+ ")").

(** The archived feed: 4.3.2 of 1 March 2021, two releases of the 4.2 line
    on the same day, and a WAR distribution. *)
Definition crowd432 : Package :=
  mkPackage (binary "atlassian-crowd-4.3.2.tar.gz") "4.3.2" (GoTime.Date 2021 3 1) false.
Definition crowd420 : Package :=
  mkPackage (binary "atlassian-crowd-4.2.0.tar.gz") "4.2.0" (GoTime.Date 2020 9 10) false.
Definition crowd421 : Package :=
  mkPackage (binary "atlassian-crowd-4.2.1.tar.gz") "4.2.1" (GoTime.Date 2020 9 10) false.
Definition crowd432war : Package :=
  mkPackage (binary "atlassian-crowd-4.3.2-war.zip") "4.3.2" (GoTime.Date 2021 3 1) false.

Definition archivedRecords : list Package := [crowd432; crowd420; crowd421; crowd432war].
Definition archivedText : string :=
  jsonArray [jsonRecord (ZipURL crowd432) "4.3.2" "01-Mar-2021";
             jsonRecord (ZipURL crowd420) "4.2.0" "10-Sep-2020";
             jsonRecord (ZipURL crowd421) "4.2.1" "10-Sep-2020";
             jsonRecord (ZipURL crowd432war) "4.3.2" "01-Mar-2021"].

(** The current feed: 4.3.1 of 10 January 2021. *)
Definition crowd431 : Package :=
  mkPackage (binary "atlassian-crowd-4.3.1.tar.gz") "4.3.1" (GoTime.Date 2021 1 10) false.

Definition currentRecords : list Package := [crowd431].
Definition currentText : string :=
  jsonArray [jsonRecord (ZipURL crowd431) "4.3.1" "10-Jan-2021"].

(** [json.Unmarshal] on the texts of this world, tabulated. *)
Definition json_Unmarshal (text : list byte) : string + list Package :=
  let t := string_of_list_byte text in
  if String.eqb t archivedText then inr archivedRecords
  else if String.eqb t currentText then inr currentRecords
  else if String.eqb t "[]" then inr []
  else inl "invalid character looking for beginning of value".

(** The three feeds as served; the early-access feed lists nothing. *)
Definition http_Get (url : string) : string + list byte :=
  if String.eqb url archiveUrl then inr (jsonp archivedText)
  else if String.eqb url currentUrl then inr (jsonp currentText)
  else if String.eqb url eapUrl then inr (jsonp "[]")
  else inl "no such host".

(** The same feeds on a day the early-access feed answers with an error
    page instead of the wrapped array. *)
Definition http_Get_outage (url : string) : string + list byte :=
  if String.eqb url eapUrl then inr (list_byte_of_string "<html>Service Unavailable</html>")
  else http_Get url.

(** A working directory with two tracked lines, a hidden directory and a
    file, next to a directory [releases] that holds one line of its own. *)
Definition ioutil_ReadDir (path : string) : string + list FileInfo :=
  if String.eqb path "." then
    inr [mkFileInfo ".git" true; mkFileInfo "4.2" true; mkFileInfo "4.3" true;
         mkFileInfo "Dockerfile.tmpl" false; mkFileInfo "releases" true]
  else if String.eqb path "releases" then inr [mkFileInfo "9.9" true]
  else inl "no such file or directory".

End Demo.

(** ** The file operations of update.go *)

(** The flags [os.O_CREATE], [os.O_WRONLY] and [os.O_TRUNC]; a flag word is
    the list of the flags or-ed together. *)
Inductive OpenFlag := O_CREATE | O_WRONLY | O_TRUNC.

(** An [*os.File] is named by the number of operations that came before the
    call that opened it. *)
Definition File := nat.

(** The calls into [os], [io] and [text/template] that [main], [update] and
    [copyFile] make. *)
Inductive Op :=
| os_Open (name : string)
| os_OpenFile (name : string) (flag : list OpenFlag) (perm : Z)
| File_Close (f : File)
| Template_Execute (f : File) (data : Package)
| io_Copy (dst src : File)
| os_Chmod (name : string) (mode : Z).

(** A computation threads the history of the calls made so far. *)
Definition IO (A : Type) : Type := list Op → list Op * A.

#[global] Instance IO_ret : MRet IO := λ A x h, (h, x).
#[global] Instance IO_bind : MBind IO :=
  λ A B k c h, let '(h', x) := c h in k x h'.

(** A file mode written with its three octal digits, [0764] as
    [mode 7 6 4]. *)
Definition mode (u g o : Z) : Z := u * 64 + g * 8 + o.

(** What [main] prints before [os.Exit(1)]. *)
Inductive Failure :=
| error_fetching_version_dirs (err : error)
| error_reading_atlassian_feeds (err : error)
| cant_find_url_for_version (dir : string)
| error_updating (dir : string) (err : string).

(** The files open after the calls [todo], made after the calls [done] with
    the files [opened] open: a successful open adds its file, a close takes
    its file away. *)
Fixpoint openAfter (outcome : list Op → Op → option string)
    (done todo : list Op) (opened : list File) : list File :=
  match todo with
  | [] => opened
  | op :: todo' =>
      let opened' :=
        match op with
        | os_Open _ | os_OpenFile _ _ _ =>
            if outcome done op is None then opened ++ [length done] else opened
        | File_Close f => filter (λ g, g ≠ f) opened
        | _ => opened
        end in
      openAfter outcome (done ++ [op]) todo' opened'
  end.

Definition openFiles (outcome : list Op → Op → option string) (h : list Op) : list File :=
  openAfter outcome [] h [].

Section Files.

(** The outside world: whether a call made after a given history fails, and
    with what text; and [filepath.Join] of a directory and a file name. *)
Variable outcome : list Op → Op → option string.
Variable filepath_Join : string → string → string.

(** A call that returns an error only. *)
Definition call (op : Op) : IO (option string) :=
  λ h, (h ++ [op], outcome h op).

(** A call that returns a file and an error. *)
Definition open (op : Op) : IO (File * option string) :=
  λ h, (h ++ [op], (length h, outcome h op)).

(** [func copyFile(src, dst string, perm os.FileMode) (err error)]; the
    deferred calls run in reverse order at each return. *)
Definition copyFile (src dst : string) (perm : Z) : IO (option string) :=
  '(in_, err) ← open (os_Open src);
  match err with
  | Some _ => mret err
  | None =>
      '(out, err) ← open (os_OpenFile dst [O_CREATE; O_WRONLY; O_TRUNC] perm);
      match err with
      | Some _ => _ ← call (File_Close in_); mret err
      | None =>
          err ← call (io_Copy out in_);
          oErr ← call (File_Close out);
          let err := if err is None then oErr else err in
          _ ← call (File_Close in_);
          mret err
      end
  end.

(** [func update(dir string, pkg Package) (err error)]. *)
Definition update (dir : string) (pkg : Package) : IO (option string) :=
  '(f, err) ← open (os_OpenFile (filepath_Join dir "Dockerfile")
                      [O_CREATE; O_WRONLY; O_TRUNC] (mode 6 4 4));
  match err with
  | Some _ => mret err
  | None =>
      err ← call (Template_Execute f pkg);
      match err with
      | Some _ => _ ← call (File_Close f); mret err
      | None =>
          err ← copyFile "docker-entrypoint.sh"
                  (filepath_Join dir "docker-entrypoint.sh") (mode 7 6 4);
          match err with
          | Some _ => _ ← call (File_Close f); mret err
          | None =>
              err ← call (os_Chmod (filepath_Join dir "docker-entrypoint.sh") (mode 7 6 4));
              _ ← call (File_Close f);
              mret err
          end
      end
  end.

(** The loop of [main] over the version directories (update.go 41-52);
    [Some] is the failure printed before [os.Exit(1)], [None] the normal
    end of the loop. *)
Fixpoint updateDirs (versions : gmap string Package) (versionDirs : list string)
  : IO (option Failure) :=
  match versionDirs with
  | [] => mret None
  | dir :: versionDirs' =>
      match versions !! dir with
      | None => mret (Some (cant_find_url_for_version dir))
      | Some p =>
          err ← update dir p;
          match err with
          | Some e => mret (Some (error_updating dir e))
          | None => updateDirs versions versionDirs'
          end
      end
  end.

Variable http_Get : string → string + list byte.
Variable json_Unmarshal : list byte → string + list Package.
Variable ioutil_ReadDir : string → string + list FileInfo.

(** [func main()]. *)
Definition main : IO (option Failure) :=
  match getDirs ioutil_ReadDir "." with
  | (_, Some err) => mret (Some (error_fetching_version_dirs err))
  | (versionDirs, None) =>
      match getVersions http_Get json_Unmarshal currentUrl [archiveUrl; eapUrl] with
      | (_, Some err) => mret (Some (error_reading_atlassian_feeds err))
      | (versions, None) => updateDirs (default ∅ versions) versionDirs
      end
  end.

End Files.

(** ** A concrete world for the file operations *)

Module DemoFiles.

(** [filepath.Join] on a directory name and a file name. *)
Definition filepath_Join (dir name : string) : string := dir +:+ "/" +:+ name.

(** Every call succeeds. *)
Definition all_succeed (h : list Op) (op : Op) : option string := None.

(** The disk fills up while the Dockerfile of 4.3.1 is rendered. *)
Definition disk_full (h : list Op) (op : Op) : option string :=
  match op with
  | Template_Execute _ p =>
      if String.eqb (Version p) "4.3.1" then Some "no space left on device" else None
  | _ => None
  end.

(** Copying breaks off, and closing the destination fails after it. *)
Definition copy_breaks (h : list Op) (op : Op) : option string :=
  match op with
  | io_Copy _ _ => Some "unexpected EOF"
  | File_Close _ => Some "input/output error"
  | _ => None
  end.

(** A working directory in which every visible directory is a version
    line. *)
Definition tidy_ReadDir (path : string) : string + list FileInfo :=
  if String.eqb path "." then
    inr [mkFileInfo ".git" true; mkFileInfo "4.2" true; mkFileInfo "4.3" true;
         mkFileInfo "Dockerfile.tmpl" false; mkFileInfo "update.go" false]
  else inl "no such file or directory".

End DemoFiles.

(** ** The library models on the examples of Go's documentation *)

Example Contains_examples :
  GoStrings.Contains "seafood" "foo" = true ∧
  GoStrings.Contains "seafood" "bar" = false ∧
  GoStrings.Contains "seafood" "" = true ∧
  GoStrings.Contains "" "" = true.
Proof. by repeat split. Qed.

Example HasPrefix_examples :
  GoStrings.HasPrefix "Golang" "Go" = true ∧
  GoStrings.HasPrefix "Golang" "C" = false ∧
  GoStrings.HasPrefix "Golang" "" = true.
Proof. by repeat split. Qed.

Example LastIndexByte_examples :
  GoStrings.LastIndexByte "Hello, world" "l" = 10 ∧
  GoStrings.LastIndexByte "Hello, world" "o" = 8 ∧
  GoStrings.LastIndexByte "Hello, world" "x" = -1.
Proof. by repeat split. Qed.

Example Base_examples :
  GoPath.Base "/a/b" = "b" ∧ GoPath.Base "/" = "/" ∧ GoPath.Base "" = "." ∧
  GoPath.Base "a/b/" = "b" ∧ GoPath.Base "archive.tar.gz" = "archive.tar.gz".
Proof. by repeat split. Qed.

Example Index_examples :
  GoBytes.Index (list_byte_of_string "chicken") (list_byte_of_string "ken") = 4 ∧
  GoBytes.Index (list_byte_of_string "chicken") (list_byte_of_string "dmr") = -1 ∧
  GoBytes.LastIndex (list_byte_of_string "go gopher") (list_byte_of_string "go") = 3 ∧
  GoBytes.LastIndex (list_byte_of_string "go gopher") (list_byte_of_string "rodent") = -1.
Proof. by repeat split. Qed.

Example Split_examples :
  GoRegexp.Split (Ascii.eqb "a") "banana" 0 = [] ∧
  GoRegexp.Split (Ascii.eqb "a") "banana" 1 = ["banana"] ∧
  GoRegexp.Split (Ascii.eqb "a") "banana" 2 = ["b"; "nana"] ∧
  GoRegexp.Split (Ascii.eqb "a") "banana" 7 = ["b"; "n"; "n"; ""] ∧
  GoRegexp.Split (Ascii.eqb "a") "" 3 = [""].
Proof. by repeat split. Qed.

Example Date_examples :
  GoTime.Date 1970 1 1 = 0 ∧
  GoTime.Date 2021 3 1 = 1614556800 ∧
  GoTime.Date 2000 3 1 - GoTime.Date 2000 2 28 = 2 * 86400 ∧
  GoTime.After (GoTime.Date 2021 3 1) (GoTime.Date 2021 1 10) = true ∧
  GoTime.After (GoTime.Date 2021 1 10) (GoTime.Date 2021 1 10) = false.
Proof. by repeat split. Qed.

(** ** Strings *)

Section StringFacts.

Lemma string_app_cons (a : ascii) (s t : string) : String a s +:+ t = String a (s +:+ t).
Proof. reflexivity. Qed.

Lemma string_app_nil_l (s : string) : "" +:+ s = s.
Proof. reflexivity. Qed.

Lemma string_app_nil_r (s : string) : s +:+ "" = s.
Proof. induction s as [|a s IH]; [done|]. by rewrite string_app_cons, IH. Qed.

Lemma string_app_assoc (s t u : string) : (s +:+ t) +:+ u = s +:+ t +:+ u.
Proof. induction s as [|a s IH]; [done|]. by rewrite !string_app_cons, IH. Qed.

Lemma HasPrefix_spec (s pre : string) :
  GoStrings.HasPrefix s pre = true ↔ ∃ post, s = pre +:+ post.
Proof.
  revert s. induction pre as [|b pre IH]; intros s.
  - destruct s; simpl; (split; [intros _; by eexists | done]).
  - destruct s as [|a s]; simpl.
    + split; [done | intros [post Hpost]; discriminate].
    + rewrite andb_true_iff, Ascii.eqb_eq, IH. split.
      * intros [-> [post ->]]. by exists post.
      * intros [post Hpost]. rewrite string_app_cons in Hpost. injection Hpost as -> ->. eauto.
Qed.

Lemma Contains_spec (s sub : string) :
  GoStrings.Contains s sub = true ↔ substringOf sub s.
Proof.
  unfold substringOf. induction s as [|a s IH].
  - change (GoStrings.Contains "" sub) with (GoStrings.HasPrefix "" sub || false).
    rewrite orb_false_r, HasPrefix_spec. split.
    + intros [post Hpost]. by exists "", post.
    + intros (pre & post & Heq). destruct pre; [by exists post | discriminate].
  - change (GoStrings.Contains (String a s) sub)
      with (GoStrings.HasPrefix (String a s) sub || GoStrings.Contains s sub).
    rewrite orb_true_iff, HasPrefix_spec, IH. split.
    + intros [[post Hpost] | (pre & post & ->)].
      * by exists "", post.
      * by exists (String a pre), post.
    + intros (pre & post & Heq). destruct pre as [|a' pre].
      * left. by exists post.
      * right. rewrite string_app_cons in Heq. injection Heq as -> ->. eauto.
Qed.

Lemma Contains_false (s sub : string) :
  GoStrings.Contains s sub = false ↔ ¬ substringOf sub s.
Proof. rewrite <- Contains_spec. by destruct (GoStrings.Contains s sub). Qed.

End StringFacts.

(** ** The version key normaliser *)

Section Normaliser.

Import Version GoRegexp.

Lemma Split_go_free (cuts : nat) (cur s : string) :
  sepFree s = true → Split_go versionSeparator cuts cur s = [cur +:+ s].
Proof.
  revert cur. induction s as [|c s IH]; intros cur Hfree; simpl.
  - by rewrite string_app_nil_r.
  - simpl in Hfree. apply andb_true_iff in Hfree as [Hc Hs].
    apply negb_true_iff in Hc. destruct cuts as [|cuts]; [done|].
    rewrite Hc, IH by done. by rewrite string_app_assoc.
Qed.

Lemma Split_go_cut (cuts : nat) (cur x : string) (c : ascii) (rest : string) :
  sepFree x = true → versionSeparator c = true →
  Split_go versionSeparator (S cuts) cur (x +:+ String c rest)
  = (cur +:+ x) :: Split_go versionSeparator cuts "" rest.
Proof.
  revert cur. induction x as [|a x IH]; intros cur Hfree Hc.
  - rewrite string_app_nil_l, string_app_nil_r. simpl. by rewrite Hc.
  - simpl in Hfree. apply andb_true_iff in Hfree as [Ha Hx].
    apply negb_true_iff in Ha. rewrite string_app_cons. simpl.
    rewrite Ha, IH by done. by rewrite string_app_assoc.
Qed.

(** A text is free of separators or has a first one. *)
Lemma sepFree_decompose (s : string) :
  sepFree s = true ∨
  ∃ x c rest, s = x +:+ String c rest ∧ sepFree x = true ∧ versionSeparator c = true.
Proof.
  induction s as [|a s IH]; [by left|].
  destruct (versionSeparator a) eqn:Ha.
  - right. by exists "", a, s.
  - destruct IH as [Hs | (x & c & rest & -> & Hx & Hc)].
    + left. simpl. by rewrite Ha, Hs.
    + right. exists (String a x), c, rest. simpl. by rewrite Ha, Hx.
Qed.

Lemma MajorMinor_free (v : string) : sepFree v = true → MajorMinor v = "0.0".
Proof. intros Hv. unfold MajorMinor, Split. by rewrite Split_go_free. Qed.

Lemma Split_one_cut (x : string) (c : ascii) (y : string) :
  sepFree x = true → versionSeparator c = true → sepFree y = true →
  Split versionSeparator (x +:+ String c y) 3 = [x; y].
Proof.
  intros Hx Hc Hy. unfold Split.
  by rewrite Split_go_cut, Split_go_free.
Qed.

Lemma Split_two_cuts (x : string) (c : ascii) (y : string) (c' : ascii) (rest : string) :
  sepFree x = true → versionSeparator c = true →
  sepFree y = true → versionSeparator c' = true →
  Split versionSeparator (x +:+ String c (y +:+ String c' rest)) 3 = [x; y; rest].
Proof.
  intros Hx Hc Hy Hc'. unfold Split.
  rewrite !Split_go_cut by done. by destruct rest.
Qed.

Lemma MajorMinor_one_cut (x : string) (c : ascii) (y : string) :
  sepFree x = true → versionSeparator c = true → sepFree y = true →
  MajorMinor (x +:+ String c y) = x +:+ "." +:+ y.
Proof. intros. unfold MajorMinor. by rewrite Split_one_cut. Qed.

Lemma MajorMinor_two_cuts (x : string) (c : ascii) (y : string) (c' : ascii) (rest : string) :
  sepFree x = true → versionSeparator c = true →
  sepFree y = true → versionSeparator c' = true →
  MajorMinor (x +:+ String c (y +:+ String c' rest)) = x +:+ "." +:+ y.
Proof. intros. unfold MajorMinor. by rewrite Split_two_cuts. Qed.

(** The three shapes of a key. *)
Lemma MajorMinor_shape (v : string) :
  MajorMinor v = "0.0" ∨
  ∃ x y, sepFree x = true ∧ sepFree y = true ∧ MajorMinor v = x +:+ "." +:+ y.
Proof.
  destruct (sepFree_decompose v) as [Hv | (x & c & rest & -> & Hx & Hc)].
  - left. by apply MajorMinor_free.
  - right. exists x.
    destruct (sepFree_decompose rest) as [Hr | (y & c' & rest' & -> & Hy & Hc')].
    + exists rest. by rewrite MajorMinor_one_cut.
    + exists y. by rewrite MajorMinor_two_cuts.
Qed.

Lemma Split_length (v : string) : (length (Split versionSeparator v 3) ≤ 3)%nat.
Proof.
  destruct (sepFree_decompose v) as [Hv | (x & c & rest & -> & Hx & Hc)].
  - unfold Split. rewrite Split_go_free by done. simpl. lia.
  - destruct (sepFree_decompose rest) as [Hr | (y & c' & rest' & -> & Hy & Hc')].
    + rewrite Split_one_cut by done. simpl. lia.
    + rewrite Split_two_cuts by done. simpl. lia.
Qed.

End Normaliser.

Section NormaliserClaims.

Import Version GoRegexp.

(** Where no two separators are adjacent, cutting at runs and cutting at
    single separators are the same thing. *)
Lemma splitRuns_Split_go (cuts : nat) (skipping : bool) (cur s : string) :
  noAdjacentSeps s = true →
  (skipping = true →
   match s with String c _ => versionSeparator c = false | EmptyString => True end) →
  splitRuns cuts skipping cur s = Split_go versionSeparator cuts cur s.
Proof.
  revert cuts skipping cur.
  induction s as [|c s IH]; intros cuts skipping cur Hadj Hskip; [done|].
  cbn [noAdjacentSeps] in Hadj. apply andb_true_iff in Hadj as [Hc Hadj].
  cbn [splitRuns Split_go].
  destruct (versionSeparator c) eqn:Hsep.
  - assert (skipping = false) as ->.
    { destruct skipping; [|done]. by specialize (Hskip eq_refl). }
    simpl. destruct cuts as [|cuts]; [done|].
    rewrite IH; [done..|]. intros _. destruct s as [|c' s]; [done|].
    simpl in Hc. by destruct (versionSeparator c').
  - simpl. destruct cuts as [|cuts]; [done|].
    by rewrite IH.
Qed.

Lemma MajorMinor_by_runs_agrees (v : string) :
  noAdjacentSeps v = true → MajorMinor_by_runs v = MajorMinor v.
Proof.
  intros Hadj. unfold MajorMinor_by_runs, MajorMinor, Split.
  rewrite splitRuns_Split_go by done.
  destruct (Split_go versionSeparator 2 "" v) as [|p0 [|p1 rest]]; [done..|].
  destruct (Z.ltb_spec (Z.of_nat (length (p0 :: p1 :: rest))) 2) as [Hlt|_]; [|done].
  simpl length in Hlt. lia.
Qed.

(** C4, amended.  [MajorMinor] never fails and cuts its argument at single
    separator characters, not at runs of them: a text without dot or hyphen
    gives the fallback ["0.0"]; otherwise the result is the text before the
    first separator, a dot, and the text between the first separator and the
    second one (or the end), so that two adjacent separators leave an empty
    second piece, as in ["4..3"], which gives ["4."].  [Split] yields at most
    three pieces, and ["4.3.1"], ["4.3.1-standalone"] and ["5"] give
    ["4.3"], ["4.3"] and ["0.0"].  On every text without two adjacent
    separators the result is the one cutting at runs gives. *)
Theorem MajorMinor_cuts_at_single_separators :
  (∀ v, sepFree v = true → MajorMinor v = "0.0") ∧
  (∀ x c y,
     sepFree x = true → versionSeparator c = true → sepFree y = true →
     MajorMinor (x +:+ String c y) = x +:+ "." +:+ y) ∧
  (∀ x c y c' rest,
     sepFree x = true → versionSeparator c = true →
     sepFree y = true → versionSeparator c' = true →
     MajorMinor (x +:+ String c (y +:+ String c' rest)) = x +:+ "." +:+ y) ∧
  (∀ v, (length (Split versionSeparator v 3) ≤ 3)%nat) ∧
  (∀ v, noAdjacentSeps v = true → MajorMinor v = MajorMinor_by_runs v) ∧
  MajorMinor "4.3.1" = "4.3" ∧
  MajorMinor "4.3.1-standalone" = "4.3" ∧
  MajorMinor "5" = "0.0" ∧
  MajorMinor "4..3" = "4.".
Proof.
  split; [exact MajorMinor_free|].
  split; [exact MajorMinor_one_cut|].
  split; [exact MajorMinor_two_cuts|].
  split; [exact Split_length|].
  split; [by intros v ->%MajorMinor_by_runs_agrees|].
  by repeat split.
Qed.

Lemma MajorMinor_cuts_witness :
  sepFree "4" = true ∧ versionSeparator "." = true ∧
  sepFree "3" = true ∧ versionSeparator "-" = true ∧
  MajorMinor ("4" +:+ String "." ("3" +:+ String "-" "standalone")) = "4" +:+ "." +:+ "3".
Proof.
  do 4 (split; [reflexivity|]).
  apply (proj1 (proj2 (proj2 MajorMinor_cuts_at_single_separators)));
    reflexivity.
Defined.

(** C4 as worded fails: on ["4..3"] the two dots form one run, which the
    wording takes as a single separator (pieces ["4"] and ["3"]), while the
    program cuts at each dot and returns ["4."]. *)
Lemma MajorMinor_not_by_runs :
  MajorMinor "4..3" = "4." ∧
  MajorMinor_by_runs "4..3" = "4.3" ∧
  MajorMinor "4..3" ≠ MajorMinor_by_runs "4..3".
Proof. by repeat split. Qed.

(** C7.  Every key has the form [x.y] with [x] and [y] free of separators,
    it splits again into exactly these two pieces, and so normalising a key
    returns it unchanged. *)
Theorem MajorMinor_idempotent (v : string) :
  (∃ x y, MajorMinor v = x +:+ "." +:+ y ∧
          Split versionSeparator (MajorMinor v) 3 = [x; y]) ∧
  MajorMinor (MajorMinor v) = MajorMinor v.
Proof.
  assert (∃ x y, sepFree x = true ∧ sepFree y = true ∧ MajorMinor v = x +:+ "." +:+ y)
    as (x & y & Hx & Hy & Hv).
  { destruct (MajorMinor_shape v) as [Hv | Hv]; [|done].
    by exists "0", "0". }
  rewrite Hv. split.
  - exists x, y. split; [done|]. by apply Split_one_cut.
  - by apply MajorMinor_one_cut.
Qed.

End NormaliserClaims.

(** ** The package filter *)

Section Filter.

Lemma stripTrailingSlashes_id (pre s : string) :
  s ≠ "" → slashFree s = true →
  GoPath.stripTrailingSlashes (pre +:+ s) = pre +:+ s.
Proof.
  intros Hne Hfree.
  assert (GoPath.stripTrailingSlashes s = s) as Hs.
  { clear pre. induction s as [|c s IH]; [done|].
    simpl in Hfree. apply andb_true_iff in Hfree as [Hc Hfree].
    apply negb_true_iff in Hc. simpl. destruct s as [|c' s].
    - simpl. by rewrite Hc.
    - by rewrite IH. }
  induction pre as [|a pre IH]; [done|].
  rewrite string_app_cons. simpl. rewrite IH.
  destruct (pre +:+ s) eqn:Heq; [|done].
  destruct pre; [by rewrite string_app_nil_l in Heq | discriminate].
Qed.

Lemma LastIndexByte_from_free (s : string) (i found : Z) :
  slashFree s = true → GoStrings.LastIndexByte_from s "/" i found = found.
Proof.
  revert i found. induction s as [|c s IH]; intros i found Hfree; [done|].
  simpl in Hfree. apply andb_true_iff in Hfree as [Hc Hfree].
  apply negb_true_iff in Hc. simpl. by rewrite Hc, IH.
Qed.

Lemma LastIndexByte_from_last (pre s : string) (i found : Z) :
  slashFree s = true →
  GoStrings.LastIndexByte_from (pre +:+ String "/" s) "/" i found
  = i + Z.of_nat (String.length pre).
Proof.
  revert i found. induction pre as [|a pre IH]; intros i found Hfree.
  - rewrite string_app_nil_l. simpl. rewrite LastIndexByte_from_free by done. lia.
  - rewrite string_app_cons. simpl. rewrite IH by done. lia.
Qed.

Lemma substring_all (s : string) : String.substring 0 (String.length s) s = s.
Proof. induction s as [|c s IH]; [done|]. simpl. by rewrite IH. Qed.

Lemma substring_skip (pre s : string) (n : nat) :
  String.substring (String.length pre) n (pre +:+ s) = String.substring 0 n s.
Proof. induction pre as [|a pre IH]; [done|]. by rewrite string_app_cons. Qed.

Lemma string_length_app (s t : string) :
  String.length (s +:+ t) = (String.length s + String.length t)%nat.
Proof. induction s as [|a s IH]; [done|]. rewrite string_app_cons. simpl. by rewrite IH. Qed.

(** [path.Base] of a path that ends in a slash-free, non-empty segment is
    that segment. *)
Lemma Base_last_segment (dir name : string) :
  name ≠ "" → slashFree name = true →
  GoPath.Base (dir +:+ "/" +:+ name) = name.
Proof.
  intros Hne Hfree. unfold GoPath.Base.
  destruct (String.eqb_spec (dir +:+ "/" +:+ name) "") as [Heq|_].
  { destruct dir; discriminate. }
  replace (dir +:+ "/" +:+ name) with ((dir +:+ "/") +:+ name) by apply string_app_assoc.
  rewrite stripTrailingSlashes_id by done.
  rewrite string_app_assoc. change ("/" +:+ name) with (String "/" name).
  unfold GoStrings.LastIndexByte.
  rewrite LastIndexByte_from_last by done.
  destruct (Z.leb_spec 0 (0 + Z.of_nat (String.length dir))) as [_|]; [|lia].
  unfold GoStrings.slice_from.
  replace (Z.to_nat (0 + Z.of_nat (String.length dir) + 1))
    with (String.length (dir +:+ "/")) by (rewrite string_length_app; simpl; lia).
  change (String "/" name) with ("/" +:+ name). rewrite <- string_app_assoc.
  rewrite substring_skip, string_length_app.
  replace (String.length (dir +:+ "/") + String.length name - String.length (dir +:+ "/"))%nat
    with (String.length name) by lia.
  rewrite substring_all.
  destruct (String.eqb_spec name "") as [|_]; done.
Qed.

Lemma skipped_false (filename : string) :
  skipped filename = false ↔
  substringOf ".tar.gz" filename ∧
  (substringOf "enterprise" filename → substringOf "standalone" filename) ∧
  ¬ substringOf "cluster" filename ∧
  ¬ substringOf "war" filename.
Proof.
  unfold skipped. rewrite <- !Contains_spec.
  destruct (GoStrings.Contains filename ".tar.gz"),
           (GoStrings.Contains filename "enterprise"),
           (GoStrings.Contains filename "standalone"),
           (GoStrings.Contains filename "cluster"),
           (GoStrings.Contains filename "war"); simpl; intuition congruence.
Qed.

(** C5.  The filter is a function of the package alone, and it keeps a
    package exactly when the last element of its archive URL contains
    [.tar.gz], contains [standalone] if it contains [enterprise], and
    contains neither [cluster] nor [war]; that element is the text after the
    last slash of a URL that ends in a file name.  The plain enterprise
    archive is dropped and the enterprise standalone one is kept. *)
Theorem relevant_iff_four_conditions :
  (∀ p : Package,
     relevant p = true ↔
     substringOf ".tar.gz" (GoPath.Base (ZipURL p)) ∧
     (substringOf "enterprise" (GoPath.Base (ZipURL p)) →
      substringOf "standalone" (GoPath.Base (ZipURL p))) ∧
     ¬ substringOf "cluster" (GoPath.Base (ZipURL p)) ∧
     ¬ substringOf "war" (GoPath.Base (ZipURL p))) ∧
  (∀ dir name, name ≠ "" → slashFree name = true →
     GoPath.Base (dir +:+ "/" +:+ name) = name) ∧
  (∀ v d l,
     relevant (mkPackage (Demo.binary "atlassian-crowd-4.3.1-enterprise.tar.gz") v d l)
     = false) ∧
  (∀ v d l,
     relevant
       (mkPackage (Demo.binary "atlassian-crowd-4.3.1-enterprise-standalone.tar.gz") v d l)
     = true).
Proof.
  split; [|split; [exact Base_last_segment | by split]].
  intros p. unfold relevant. rewrite negb_true_iff. apply skipped_false.
Qed.

Lemma relevant_iff_witness :
  "crowd.tar.gz" ≠ "" ∧ slashFree "crowd.tar.gz" = true ∧
  GoPath.Base ("https://host/binary" +:+ "/" +:+ "crowd.tar.gz") = "crowd.tar.gz".
Proof.
  split; [discriminate|]. split; [reflexivity|].
  apply (proj1 (proj2 relevant_iff_four_conditions)); [discriminate | reflexivity].
Defined.

End Filter.

(** ** The JSONP wrapper *)

Section Wrapper.

Import GoBytes.

Lemma HasPrefix_single (s : list byte) (b : byte) :
  HasPrefix s [b] = match s with a :: _ => Byte.eqb a b | [] => false end.
Proof. destruct s as [|a [|a' s]]; simpl; by rewrite ?andb_true_r. Qed.

Lemma byte_eqb_eq (a b : byte) : Byte.eqb a b = true ↔ a = b.
Proof. split; [apply Byte.byte_dec_bl | apply Byte.byte_dec_lb]. Qed.

Lemma byte_eqb_neq (a b : byte) : Byte.eqb a b = false ↔ a ≠ b.
Proof. rewrite <- byte_eqb_eq. by destruct (Byte.eqb a b). Qed.

Lemma Index_from_absent (s : list byte) (b : byte) (i : Z) :
  b ∉ s → Index_from s [b] i = -1.
Proof.
  revert i. induction s as [|a s IH]; intros i Hnot; [done|].
  apply not_elem_of_cons in Hnot as [Hne Hnot].
  cbn [Index_from]. rewrite HasPrefix_single.
  assert (Byte.eqb a b = false) as -> by (apply byte_eqb_neq; congruence).
  by apply IH.
Qed.

Lemma Index_from_first (pre post : list byte) (b : byte) (i : Z) :
  b ∉ pre → Index_from (pre ++ b :: post) [b] i = i + Z.of_nat (length pre).
Proof.
  revert i. induction pre as [|a pre IH]; intros i Hnot.
  - cbn [app Index_from]. rewrite HasPrefix_single.
    assert (Byte.eqb b b = true) as -> by (by apply byte_eqb_eq).
    simpl. lia.
  - apply not_elem_of_cons in Hnot as [Hne Hnot].
    cbn [app Index_from]. rewrite HasPrefix_single.
    assert (Byte.eqb a b = false) as -> by (apply byte_eqb_neq; congruence).
    rewrite IH by done. simpl length. lia.
Qed.

Lemma LastIndex_from_absent (s : list byte) (b : byte) (i found : Z) :
  b ∉ s → LastIndex_from s [b] i found = found.
Proof.
  revert i found. induction s as [|a s IH]; intros i found Hnot; [done|].
  apply not_elem_of_cons in Hnot as [Hne Hnot].
  cbn [LastIndex_from]. rewrite HasPrefix_single.
  assert (Byte.eqb a b = false) as -> by (apply byte_eqb_neq; congruence).
  by apply IH.
Qed.

Lemma LastIndex_from_last (pre post : list byte) (b : byte) (i found : Z) :
  b ∉ post → LastIndex_from (pre ++ b :: post) [b] i found = i + Z.of_nat (length pre).
Proof.
  revert i found. induction pre as [|a pre IH]; intros i found Hnot.
  - cbn [app LastIndex_from]. rewrite HasPrefix_single.
    assert (Byte.eqb b b = true) as -> by (by apply byte_eqb_eq).
    rewrite LastIndex_from_absent by done. simpl. lia.
  - cbn [app LastIndex_from]. rewrite IH by done. simpl length. lia.
Qed.

Lemma firstAt_split (b : byte) (data : list byte) (i : nat) :
  firstAt b data i ↔ ∃ pre post, data = pre ++ b :: post ∧ (b ∉ pre) ∧ i = length pre.
Proof.
  split.
  - intros [Hi Hbefore]. exists (take i data), (drop (S i) data).
    split; [by rewrite take_drop_middle|]. split.
    + intros (k & Hk)%list_elem_of_lookup_1.
      apply lookup_take_Some in Hk as [Hk Hlt]. by apply (Hbefore k).
    + apply lookup_lt_Some in Hi. rewrite length_take. lia.
  - intros (pre & post & -> & Hnot & ->). split.
    + by apply list_lookup_middle.
    + intros k Hk Hlook. rewrite lookup_app_l in Hlook by done.
      by apply list_elem_of_lookup_2 in Hlook.
Qed.

Lemma lastAt_split (b : byte) (data : list byte) (j : nat) :
  lastAt b data j ↔ ∃ pre post, data = pre ++ b :: post ∧ (b ∉ post) ∧ j = length pre.
Proof.
  split.
  - intros [Hj Hafter]. exists (take j data), (drop (S j) data).
    split; [by rewrite take_drop_middle|]. split.
    + intros (k & Hk)%list_elem_of_lookup_1.
      rewrite lookup_drop in Hk. apply (Hafter (S j + k)%nat); [lia | done].
    + apply lookup_lt_Some in Hj. rewrite length_take. lia.
  - intros (pre & post & -> & Hnot & ->). split.
    + by apply list_lookup_middle.
    + intros k Hk Hlook. rewrite lookup_app_r in Hlook by lia.
      destruct (k - length pre)%nat as [|n] eqn:Hn; [lia|].
      simpl in Hlook. by apply list_elem_of_lookup_2 in Hlook.
Qed.

Lemma Index_firstAt (b : byte) (data : list byte) (i : nat) :
  firstAt b data i → Index data [b] = Z.of_nat i.
Proof.
  intros (pre & post & -> & Hnot & ->)%firstAt_split.
  unfold Index. rewrite Index_from_first by done. lia.
Qed.

Lemma LastIndex_lastAt (b : byte) (data : list byte) (j : nat) :
  lastAt b data j → LastIndex data [b] = Z.of_nat j.
Proof.
  intros (pre & post & -> & Hnot & ->)%lastAt_split.
  unfold LastIndex. rewrite LastIndex_from_last by done. lia.
Qed.

Lemma Index_lower_bound (b : byte) (data : list byte) : -1 ≤ Index data [b].
Proof.
  unfold Index. destruct (decide (b ∈ data)) as [Hin|Hnot].
  - apply list_elem_of_split_l in Hin as (pre & post & -> & Hnot).
    rewrite Index_from_first by done. lia.
  - by rewrite Index_from_absent.
Qed.

(** The offsets of a text that is wrapped, and the slice between them. *)
Lemma wrapped_offsets (pre payload post : list byte) (open close : byte) :
  open ∉ pre → close ∉ post →
  let data := pre ++ open :: payload ++ close :: post in
  Index data [open] = Z.of_nat (length pre) ∧
  LastIndex data [close] = Z.of_nat (length pre) + 1 + Z.of_nat (length payload) ∧
  slice data (Index data [open] + 1) (LastIndex data [close]) = payload.
Proof.
  intros Hopen Hclose data.
  assert (Index data [open] = Z.of_nat (length pre)) as Hstart.
  { unfold Index, data. by rewrite Index_from_first. }
  assert (LastIndex data [close] = Z.of_nat (length pre) + 1 + Z.of_nat (length payload))
    as Hend.
  { unfold LastIndex, data.
    replace (pre ++ open :: payload ++ close :: post)
      with ((pre ++ open :: payload) ++ close :: post) by (by rewrite <- app_assoc).
    rewrite LastIndex_from_last by done. rewrite length_app. simpl. lia. }
  split; [done|]. split; [done|].
  rewrite Hstart, Hend. unfold slice, data.
  replace (Z.to_nat (Z.of_nat (length pre) + 1)) with (length (pre ++ [open]))
    by (rewrite length_app; simpl; lia).
  replace (pre ++ open :: payload ++ close :: post)
    with ((pre ++ [open]) ++ payload ++ close :: post) by (by rewrite <- app_assoc).
  rewrite drop_app_length.
  replace (Z.to_nat _) with (length payload) by lia.
  by rewrite take_app_length.
Qed.

(** A text either lacks a parenthesis, or has its last closing one at or
    before its first opening one, or is wrapped. *)
Lemma wrapper_cases (open close : byte) (data : list byte) :
  (open ∉ data ∨ close ∉ data ∨
   ∃ i j, firstAt open data i ∧ lastAt close data j ∧ (j ≤ i)%nat) ∨
  (∃ pre payload post,
     data = pre ++ open :: payload ++ close :: post ∧ (open ∉ pre) ∧ (close ∉ post)).
Proof.
  destruct (decide (open ∈ data)) as [Hopen|]; [|by left; left].
  destruct (decide (close ∈ data)) as [Hclose|]; [|by left; right; left].
  apply list_elem_of_split_l in Hopen as (pre & rest & Hdata & Hpre).
  apply list_elem_of_split_r in Hclose as (front & post & Hdata' & Hpost).
  destruct (decide (length front ≤ length pre)%nat) as [Hle|Hgt].
  - left. right. right. exists (length pre), (length front).
    split; [apply firstAt_split; eauto|]. split; [apply lastAt_split; eauto | done].
  - right. exists pre, (take (length front - length pre - 1) rest), post.
    split; [|done].
    assert (front = pre ++ open :: take (length front - length pre - 1) rest) as Hfront.
    { assert (front = take (length front) data) as Htake
        by (by rewrite Hdata', take_app_length).
      rewrite Htake at 1. rewrite Hdata, take_app, take_ge by lia.
      destruct (length front - length pre)%nat as [|n] eqn:Hn; [lia|].
      simpl. by rewrite Nat.sub_0_r. }
    rewrite Hdata' at 1. rewrite Hfront at 1. by rewrite <- app_assoc.
Qed.

End Wrapper.

(** ** Reading one feed *)

Section FeedReader.

Variable http_Get : string → string + list byte.
Variable json_Unmarshal : list byte → string + list Package.

Local Abbreviation fetch := (fetchLatestTarVersions http_Get json_Unmarshal).

(** What the reader returns once the payload is cut out. *)
Local Abbreviation decoded payload :=
  (match json_Unmarshal payload with
   | inl msg => (None, Some (json_error msg))
   | inr archives => (Some (latestTarVersions archives), None)
   end).

Lemma fetch_wrapped (url : string) (pre payload post : list byte) :
  http_Get url = inr (pre ++ x28 :: payload ++ x29 :: post) →
  x28 ∉ pre → x29 ∉ post →
  fetch url = decoded payload.
Proof.
  intros Hget Hopen Hclose. unfold fetchLatestTarVersions. rewrite Hget.
  destruct (wrapped_offsets pre payload post x28 x29 Hopen Hclose)
    as (Hstart & Hend & Hslice).
  cbv zeta in *. rewrite Hslice, Hstart, Hend.
  destruct (Z.gtb_spec (Z.of_nat (length pre) + 1 + Z.of_nat (length payload))
                       (Z.of_nat (length pre))) as [_|]; [|lia].
  destruct (Z.gtb_spec (Z.of_nat (length pre)) (-1)) as [_|]; [|lia].
  done.
Qed.

Lemma fetch_malformed (url : string) (data : list byte) :
  http_Get url = inr data →
  (x28 ∉ data ∨ x29 ∉ data ∨
   ∃ i j, firstAt x28 data i ∧ lastAt x29 data j ∧ (j ≤ i)%nat) →
  fetch url = (None, Some jsonpError).
Proof.
  intros Hget Hbad. unfold fetchLatestTarVersions. rewrite Hget. cbv zeta.
  pose proof (Index_lower_bound x28 data) as Hlow.
  assert ((GoBytes.LastIndex data [x29] >? GoBytes.Index data [x28])
          && (GoBytes.Index data [x28] >? -1) = false) as ->; [|done].
  apply andb_false_iff.
  destruct Hbad as [Hopen | [Hclose | (i & j & Hi & Hj & Hle)]].
  - right. unfold GoBytes.Index. rewrite Index_from_absent by done. done.
  - left. unfold GoBytes.LastIndex at 1.
    rewrite LastIndex_from_absent by done.
    destruct (Z.gtb_spec (-1) (GoBytes.Index data [x28])); [lia | done].
  - left. rewrite (Index_firstAt _ _ _ Hi), (LastIndex_lastAt _ _ _ Hj).
    destruct (Z.gtb_spec (Z.of_nat j) (Z.of_nat i)); [lia | done].
Qed.

Lemma decoded_not_jsonpError (payload : list byte) :
  decoded payload ≠ (None, Some jsonpError).
Proof. by destruct (json_Unmarshal payload). Qed.

(** C6.  For a feed whose text [data] was fetched, the reader returns the
    error of a malformed wrapper exactly when [data] has no opening
    parenthesis, no closing parenthesis, or its last closing parenthesis at
    or before its first opening one.  Otherwise [data] is wrapped, and the
    reader hands exactly the bytes strictly between the first opening and
    the last closing parenthesis to the JSON decoder: a decoding failure is
    returned as an error with no mapping, a decoded array goes on to the
    selection. *)
Theorem fetch_wrapper_contract (url : string) (data : list byte) :
  http_Get url = inr data →
  (fetchLatestTarVersions http_Get json_Unmarshal url = (None, Some jsonpError) ↔
     x28 ∉ data ∨ x29 ∉ data ∨
     ∃ i j, firstAt x28 data i ∧ lastAt x29 data j ∧ (j ≤ i)%nat) ∧
  (fetchLatestTarVersions http_Get json_Unmarshal url ≠ (None, Some jsonpError) →
     ∃ pre payload post,
       data = pre ++ x28 :: payload ++ x29 :: post ∧ (x28 ∉ pre) ∧ (x29 ∉ post)) ∧
  (∀ pre payload post,
     data = pre ++ x28 :: payload ++ x29 :: post → x28 ∉ pre → x29 ∉ post →
     fetchLatestTarVersions http_Get json_Unmarshal url = match json_Unmarshal payload with
                 | inl msg => (None, Some (json_error msg))
                 | inr archives => (Some (latestTarVersions archives), None)
                 end).
Proof.
  intros Hget.
  assert (∀ pre payload post,
            data = pre ++ x28 :: payload ++ x29 :: post → x28 ∉ pre → x29 ∉ post →
            fetch url = decoded payload) as Hwrapped.
  { intros pre payload post -> ??. by apply fetch_wrapped with pre post. }
  split; [split|split].
  - intros Herr.
    destruct (wrapper_cases x28 x29 data)
      as [Hbad | (pre & payload & post & Hdata & Hopen & Hclose)]; [done|].
    rewrite (Hwrapped _ _ _ Hdata Hopen Hclose) in Herr.
    by apply decoded_not_jsonpError in Herr.
  - by apply fetch_malformed.
  - intros Hok. destruct (wrapper_cases x28 x29 data) as [Hbad | Hgood]; [|done].
    by rewrite (fetch_malformed _ _ Hget Hbad) in Hok.
  - exact Hwrapped.
Qed.

End FeedReader.

(** ** The selection within one feed *)

Section Selection.

Local Abbreviation keyOf p := (Version.MajorMinor (Version p)).

Lemma selectStep_skipped (m : gmap string Package) (a : Package) :
  relevant a = false → selectStep m a = m.
Proof.
  unfold relevant, selectStep. intros Ha%negb_false_iff. by rewrite Ha.
Qed.

Lemma selectStep_other (m : gmap string Package) (a : Package) (k : string) :
  keyOf a ≠ k → selectStep m a !! k = m !! k.
Proof.
  intros Hk. unfold selectStep. cbv zeta.
  destruct (skipped _); [done|].
  destruct (m !! keyOf a) as [v|]; [destruct (GoTime.After _ _)|];
    by rewrite ?lookup_insert_ne.
Qed.

Lemma selectStep_key (m : gmap string Package) (a : Package) :
  relevant a = true →
  selectStep m a !! keyOf a =
  match m !! keyOf a with
  | None => Some a
  | Some v => if GoTime.After (Released a) (Released v) then Some a else Some v
  end.
Proof.
  unfold relevant, selectStep. intros Ha%negb_true_iff. rewrite Ha. cbv zeta.
  destruct (m !! keyOf a) as [v|] eqn:Hv; [destruct (GoTime.After _ _)|];
    by rewrite ?lookup_insert_eq.
Qed.

Lemma After_spec (t u : GoTime.Time) : GoTime.After t u = true ↔ u < t.
Proof. unfold GoTime.After. destruct (Z.gtb_spec t u); split; (done || lia). Qed.

(** What the loop has stored under a key after reading [l]: nothing if no
    candidate for the key was read, else the first of the latest ones. *)
Lemma latestTarVersions_sound (l : list Package) (k : string) :
  match latestTarVersions l !! k with
  | None => ∀ q, q ∈ l → relevant q = true → keyOf q ≠ k
  | Some p => ∃ l1 l2, l = l1 ++ p :: l2 ∧ firstLatest k l1 p l2
  end.
Proof.
  unfold latestTarVersions.
  induction l as [|a l IH] using rev_ind.
  { simpl. rewrite lookup_empty. by intros q ?%elem_of_nil. }
  rewrite foldl_snoc.
  set (m := foldl selectStep ∅ l) in *.
  assert (Hstay : selectStep m a !! k = m !! k →
                  (relevant a = true → keyOf a = k →
                   ∃ v, m !! k = Some v ∧ Released a ≤ Released v) →
                  match selectStep m a !! k with
                  | None => ∀ q, q ∈ l ++ [a] → relevant q = true → keyOf q ≠ k
                  | Some p => ∃ l1 l2, l ++ [a] = l1 ++ p :: l2 ∧ firstLatest k l1 p l2
                  end).
  { intros -> Ha. destruct (m !! k) as [p|] eqn:Hp.
    - destruct IH as (l1 & l2 & -> & Hrel & Hkey & Hbefore & Hafter).
      exists l1, (l2 ++ [a]). split; [by rewrite <- app_assoc|].
      split; [done|]. split; [done|]. split; [done|].
      intros q [Hq | ->%list_elem_of_singleton]%elem_of_app Hq1 Hq2; [by apply Hafter|].
      destruct (Ha Hq1 Hq2) as (v & [= <-] & Hle). done.
    - intros q [Hq | ->%list_elem_of_singleton]%elem_of_app Hq1 Hq2; [by apply (IH q Hq Hq1)|].
      by destruct (Ha Hq1 Hq2) as (v & ? & _). }
  destruct (relevant a) eqn:Hrel.
  2:{ apply Hstay; [by rewrite selectStep_skipped | done]. }
  destruct (decide (keyOf a = k)) as [<-|Hne].
  2:{ apply Hstay; [by apply selectStep_other | done]. }
  rewrite selectStep_key by done.
  destruct (m !! keyOf a) as [v|] eqn:Hv.
  - destruct (GoTime.After (Released a) (Released v)) eqn:Hafter.
    + apply After_spec in Hafter.
      destruct IH as (l1 & l2 & -> & _ & _ & Hbefore & Hlater).
      exists (l1 ++ v :: l2), []. split; [done|].
      split; [done|]. split; [done|]. split; [|by intros q ?%elem_of_nil].
      intros q [Hq | [-> | Hq]%elem_of_cons]%elem_of_app Hq1 Hq2.
      * specialize (Hbefore q Hq Hq1 Hq2). lia.
      * done.
      * specialize (Hlater q Hq Hq1 Hq2). lia.
    + assert (Released a ≤ Released v) as Hle.
      { destruct (Z.le_gt_cases (Released a) (Released v)) as [|Hlt]; [done|].
        apply After_spec in Hlt. congruence. }
      assert (selectStep m a !! keyOf a = Some v) as Hsame.
      { rewrite selectStep_key, Hv, Hafter by done. done. }
      specialize (Hstay Hsame). rewrite Hsame in Hstay.
      apply Hstay. intros _ _. eauto.
  - exists l, []. split; [done|].
    split; [done|]. split; [done|]. split; [|by intros q ?%elem_of_nil].
    intros q Hq Hq1 Hq2. by destruct (IH q Hq Hq1).
Qed.

(** An entry stays while no candidate for its key is released later. *)
Lemma foldl_selectStep_keeps (l : list Package) (m : gmap string Package)
    (k : string) (p : Package) :
  m !! k = Some p →
  (∀ q, q ∈ l → relevant q = true → keyOf q = k → Released q ≤ Released p) →
  foldl selectStep m l !! k = Some p.
Proof.
  revert m. induction l as [|a l IH]; intros m Hp Hle; [done|].
  simpl. apply IH.
  - destruct (relevant a) eqn:Hrel; [|by rewrite selectStep_skipped].
    destruct (decide (keyOf a = k)) as [<-|Hne]; [|by rewrite selectStep_other].
    rewrite selectStep_key, Hp by done.
    destruct (GoTime.After (Released a) (Released p)) eqn:Hafter; [|done].
    apply After_spec in Hafter.
    specialize (Hle a (list_elem_of_here _ _) Hrel eq_refl). lia.
  - intros q Hq. apply Hle. by apply list_elem_of_further.
Qed.

(** The loop stores the first of the latest candidates of every key. *)
Lemma latestTarVersions_complete (l1 l2 : list Package) (p : Package) (k : string) :
  firstLatest k l1 p l2 → latestTarVersions (l1 ++ p :: l2) !! k = Some p.
Proof.
  intros (Hrel & <- & Hbefore & Hafter). unfold latestTarVersions.
  rewrite foldl_app. simpl. apply foldl_selectStep_keeps; [|done].
  rewrite selectStep_key by done.
  pose proof (latestTarVersions_sound l1 (keyOf p)) as Hl1.
  unfold latestTarVersions in Hl1.
  destruct (foldl selectStep ∅ l1 !! keyOf p) as [v|]; [|done].
  destruct Hl1 as (l & l' & -> & Hv & Hkey & _).
  assert (Released v < Released p) as Hlt.
  { apply Hbefore; [|done..]. apply elem_of_app. right. apply list_elem_of_here. }
  apply After_spec in Hlt. by rewrite Hlt.
Qed.

Lemma latestTarVersions_lookup (l : list Package) (k : string) (p : Package) :
  latestTarVersions l !! k = Some p →
  ∃ l1 l2, l = l1 ++ p :: l2 ∧ firstLatest k l1 p l2.
Proof.
  intros Hp. pose proof (latestTarVersions_sound l k) as Hl. by rewrite Hp in Hl.
Qed.

Lemma latestTarVersions_entryOk (l : list Package) :
  map_Forall entryOk (latestTarVersions l).
Proof.
  intros k p (l1 & l2 & _ & Hrel & Hkey & _)%latestTarVersions_lookup.
  by split.
Qed.

End Selection.

(** ** Merging the feeds *)

Section Merge.

Lemma mergeFeed_lookup (url latestFeed : string)
    (newVersions versions : gmap string Package) (k : string) :
  mergeFeed url latestFeed newVersions versions !! k =
  match newVersions !! k with
  | Some p => Some (if String.eqb url latestFeed then setLatest p else p)
  | None => versions !! k
  end.
Proof.
  unfold mergeFeed. revert k.
  apply (map_fold_weak_ind
           (λ r (m : gmap string Package), ∀ k,
              r !! k = match m !! k with
                       | Some p => Some (if String.eqb url latestFeed then setLatest p else p)
                       | None => versions !! k
                       end)).
  - intros k. by rewrite lookup_empty.
  - intros i x m r Hi IH k. destruct (decide (i = k)) as [->|Hne].
    + by rewrite !lookup_insert_eq.
    + by rewrite !lookup_insert_ne.
Qed.

Lemma entryOk_setLatest (k : string) (p : Package) : entryOk k p → entryOk k (setLatest p).
Proof. by intros [Hkey Hrel]. Qed.

Lemma mergeFeed_entryOk (url latestFeed : string)
    (newVersions versions : gmap string Package) :
  map_Forall entryOk newVersions → map_Forall entryOk versions →
  map_Forall entryOk (mergeFeed url latestFeed newVersions versions).
Proof.
  intros Hnew Hold k p. rewrite mergeFeed_lookup.
  destruct (newVersions !! k) as [q|] eqn:Hq.
  - intros [= <-]. apply Hnew in Hq.
    destruct (String.eqb url latestFeed); [by apply entryOk_setLatest | done].
  - apply Hold.
Qed.

End Merge.

Section Versions.

Variable http_Get : string → string + list byte.
Variable json_Unmarshal : list byte → string + list Package.

Local Abbreviation fetch := (fetchLatestTarVersions http_Get json_Unmarshal).
Local Abbreviation records := (feedRecords http_Get json_Unmarshal).
Local Abbreviation loop := (getVersions_loop http_Get json_Unmarshal).
Local Abbreviation merged latestFeed :=
  (foldl (λ acc u, mergeFeed u latestFeed (default ∅ (fetch u).1) acc)).

Lemma fetch_records (url : string) (archives : list Package) :
  records url archives → fetch url = (Some (latestTarVersions archives), None).
Proof.
  intros (pre & payload & post & Hget & Hopen & Hclose & Hjson).
  rewrite (fetch_wrapped _ _ _ _ _ _ Hget Hopen Hclose). by rewrite Hjson.
Qed.

Lemma fetch_ok (url : string) (x : option (gmap string Package)) :
  fetch url = (x, None) →
  ∃ archives, records url archives ∧ x = Some (latestTarVersions archives).
Proof.
  intros Hfetch. destruct (http_Get url) as [msg|data] eqn:Hget.
  { unfold fetchLatestTarVersions in Hfetch. by rewrite Hget in Hfetch. }
  destruct (wrapper_cases x28 x29 data)
    as [Hbad | (pre & payload & post & -> & Hopen & Hclose)].
  { by rewrite (fetch_malformed _ _ _ _ Hget Hbad) in Hfetch. }
  rewrite (fetch_wrapped _ _ _ _ _ _ Hget Hopen Hclose) in Hfetch.
  destruct (json_Unmarshal payload) as [msg|archives] eqn:Hjson; [done|].
  injection Hfetch as <-. exists archives. split; [|done].
  by exists pre, payload, post.
Qed.

Lemma fetch_error (url : string) (x : option (gmap string Package)) (e : error) :
  fetch url = (x, Some e) → x = None.
Proof.
  unfold fetchLatestTarVersions. destruct (http_Get url) as [msg|data]; [congruence|].
  cbv zeta. destruct (negb _); [congruence|].
  destruct (json_Unmarshal _); congruence.
Qed.

Lemma fetch_entryOk (url : string) (m : gmap string Package) :
  fetch url = (Some m, None) → map_Forall entryOk m.
Proof.
  intros (archives & _ & [= ->])%fetch_ok. apply latestTarVersions_entryOk.
Qed.

Lemma loop_ok (latestFeed : string) (urls : list string) (versions : gmap string Package) :
  (∀ u, u ∈ urls → (fetch u).2 = None) →
  loop latestFeed urls versions = (Some (merged latestFeed versions urls), None).
Proof.
  revert versions. induction urls as [|url urls IH]; intros versions Hok; [done|].
  simpl. pose proof (Hok url (list_elem_of_here _ _)) as Hurl.
  destruct (fetch url) as [x [e|]] eqn:Hfetch; [done|].
  simpl. apply IH. intros u Hu. apply Hok. by apply list_elem_of_further.
Qed.

Lemma loop_error (latestFeed : string) (pre : list string) (url : string)
    (post : list string) (versions : gmap string Package)
    (x : option (gmap string Package)) (e : error) :
  (∀ u, u ∈ pre → (fetch u).2 = None) →
  fetch url = (x, Some e) →
  loop latestFeed (pre ++ url :: post) versions = (None, Some e).
Proof.
  revert versions. induction pre as [|u pre IH]; intros versions Hpre Hurl.
  - simpl. by rewrite Hurl.
  - simpl. pose proof (Hpre u (list_elem_of_here _ _)) as Hu.
    destruct (fetch u) as [y [e'|]] eqn:Hfetch; [done|].
    apply IH; [|done]. intros u' Hu'. apply Hpre. by apply list_elem_of_further.
Qed.

Lemma loop_fails (latestFeed : string) (urls : list string)
    (versions : gmap string Package) (u : string) :
  u ∈ urls → (fetch u).2 ≠ None →
  ∃ e, loop latestFeed urls versions = (None, Some e).
Proof.
  revert versions. induction urls as [|url urls IH]; intros versions Hu Hfail.
  { by apply elem_of_nil in Hu. }
  simpl. destruct (fetch url) as [x [e|]] eqn:Hfetch; [by exists e|].
  apply elem_of_cons in Hu as [-> | Hu]; [by rewrite Hfetch in Hfail|].
  by apply IH.
Qed.

Lemma loop_succeeds_inv (latestFeed : string) (urls : list string)
    (versions result : gmap string Package) (u : string) :
  loop latestFeed urls versions = (Some result, None) → u ∈ urls → (fetch u).2 = None.
Proof.
  intros Hloop Hu. destruct ((fetch u).2) as [e|] eqn:Hfetch; [|done].
  destruct (loop_fails latestFeed urls versions u Hu) as [e' He']; [congruence|].
  congruence.
Qed.

Lemma merged_untouched (latestFeed : string) (urls : list string)
    (versions : gmap string Package) (k : string) :
  (∀ u m, u ∈ urls → fetch u = (Some m, None) → m !! k = None) →
  (∀ u, u ∈ urls → (fetch u).2 = None) →
  merged latestFeed versions urls !! k = versions !! k.
Proof.
  revert versions. induction urls as [|url urls IH]; intros versions Hnone Hok; [done|].
  simpl. rewrite IH.
  - rewrite mergeFeed_lookup.
    pose proof (Hok url (list_elem_of_here _ _)) as Hurl.
    destruct (fetch url) as [x e] eqn:Hfetch. simpl in Hurl. subst e.
    destruct (fetch_ok _ _ Hfetch) as (archives & _ & ->). simpl.
    by rewrite (Hnone url _ (list_elem_of_here _ _) Hfetch).
  - intros u m Hu. apply Hnone. by apply list_elem_of_further.
  - intros u Hu. apply Hok. by apply list_elem_of_further.
Qed.

(** The merged entry of a key is the one of the last feed that has it. *)
Lemma merged_last_feed (latestFeed : string) (pre : list string) (url : string)
    (post : list string) (versions m : gmap string Package) (k : string) (p : Package) :
  (∀ u, u ∈ pre ++ url :: post → (fetch u).2 = None) →
  fetch url = (Some m, None) → m !! k = Some p →
  (∀ u m', u ∈ post → fetch u = (Some m', None) → m' !! k = None) →
  merged latestFeed versions (pre ++ url :: post) !! k
  = Some (if String.eqb url latestFeed then setLatest p else p).
Proof.
  intros Hok Hfetch Hp Hpost. rewrite foldl_app. simpl.
  rewrite merged_untouched.
  - rewrite mergeFeed_lookup, Hfetch. simpl. by rewrite Hp.
  - done.
  - intros u Hu. apply Hok. apply elem_of_app. right. by apply list_elem_of_further.
Qed.

Lemma loop_entryOk (latestFeed : string) (urls : list string)
    (versions result : gmap string Package) :
  map_Forall entryOk versions →
  loop latestFeed urls versions = (Some result, None) →
  map_Forall entryOk result.
Proof.
  revert versions. induction urls as [|url urls IH]; intros versions Hok Hloop.
  { simpl in Hloop. by injection Hloop as <-. }
  simpl in Hloop. destruct (fetch url) as [x [e|]] eqn:Hfetch; [done|].
  apply IH in Hloop; [done|].
  destruct (fetch_ok _ _ Hfetch) as (archives & _ & ->). simpl.
  apply mergeFeed_entryOk; [apply latestTarVersions_entryOk | done].
Qed.

End Versions.

(** ** The properties of the selector *)

Section SelectorClaims.

Variable http_Get : string → string + list byte.
Variable json_Unmarshal : list byte → string + list Package.

Local Abbreviation keyOf p := (Version.MajorMinor (Version p)).

(** C1, amended.  Release dates decide within one feed only: the entry a
    feed's mapping holds for a key is the first of that feed's most recently
    released candidates for the key, an entry being replaced only by a
    strictly later release.  Across feeds no dates are compared: the feeds
    are merged in processing order, the other feeds first and the latest
    feed last, and each feed's entry overwrites the entry earlier feeds left
    for the same key.  So when every feed is read, the final entry of a key
    is the one selected by the last processed feed that has a candidate for
    it, marked [Latest] when that feed is the latest feed.  Both halves are
    stated from the records as well: a feed's mapping holds [p] for a key
    exactly when [p] is the first of the latest candidates among the feed's
    records, and such a [p] of the last feed with a candidate for the key is
    the final entry. *)
Theorem getVersions_last_feed_wins (latestFeed : string) (otherFeeds : list string) :
  (∀ url m k p,
     fetchLatestTarVersions http_Get json_Unmarshal url = (Some m, None) →
     m !! k = Some p →
     ∃ l1 l2,
       feedRecords http_Get json_Unmarshal url (l1 ++ p :: l2) ∧
       firstLatest k l1 p l2) ∧
  (∀ url archives k p,
     feedRecords http_Get json_Unmarshal url archives →
     ∃ m,
       fetchLatestTarVersions http_Get json_Unmarshal url = (Some m, None) ∧
       (m !! k = Some p ↔ ∃ l1 l2, archives = l1 ++ p :: l2 ∧ firstLatest k l1 p l2)) ∧
  (∀ pre url post m k p,
     (∀ u, u ∈ feedOrder latestFeed otherFeeds →
           (fetchLatestTarVersions http_Get json_Unmarshal u).2 = None) →
     feedOrder latestFeed otherFeeds = pre ++ url :: post →
     fetchLatestTarVersions http_Get json_Unmarshal url = (Some m, None) →
     m !! k = Some p →
     (∀ u m', u ∈ post →
              fetchLatestTarVersions http_Get json_Unmarshal u = (Some m', None) →
              m' !! k = None) →
     ∃ versions,
       getVersions http_Get json_Unmarshal latestFeed otherFeeds = (Some versions, None) ∧
       versions !! k = Some (if String.eqb url latestFeed then setLatest p else p)) ∧
  (∀ pre url post l1 p l2 k,
     (∀ u, u ∈ feedOrder latestFeed otherFeeds →
           (fetchLatestTarVersions http_Get json_Unmarshal u).2 = None) →
     feedOrder latestFeed otherFeeds = pre ++ url :: post →
     feedRecords http_Get json_Unmarshal url (l1 ++ p :: l2) →
     firstLatest k l1 p l2 →
     (∀ u archives q,
        u ∈ post → feedRecords http_Get json_Unmarshal u archives → q ∈ archives →
        relevant q = true → keyOf q ≠ k) →
     ∃ versions,
       getVersions http_Get json_Unmarshal latestFeed otherFeeds = (Some versions, None) ∧
       versions !! k = Some (if String.eqb url latestFeed then setLatest p else p)).
Proof.
  assert (∀ pre url post m k p,
            (∀ u, u ∈ feedOrder latestFeed otherFeeds →
                  (fetchLatestTarVersions http_Get json_Unmarshal u).2 = None) →
            feedOrder latestFeed otherFeeds = pre ++ url :: post →
            fetchLatestTarVersions http_Get json_Unmarshal url = (Some m, None) →
            m !! k = Some p →
            (∀ u m', u ∈ post →
                     fetchLatestTarVersions http_Get json_Unmarshal u = (Some m', None) →
                     m' !! k = None) →
            ∃ versions,
              getVersions http_Get json_Unmarshal latestFeed otherFeeds
              = (Some versions, None) ∧
              versions !! k = Some (if String.eqb url latestFeed then setLatest p else p))
    as Hmerge.
  { intros pre url post m k p Hok Hfeeds Hfetch Hp Hpost.
    unfold getVersions. rewrite loop_ok by done.
    eexists. split; [done|]. rewrite Hfeeds in *.
    by apply merged_last_feed with m. }
  split; [|split; [|split; [exact Hmerge|]]].
  - intros url m k p (archives & Hrec & [= ->])%fetch_ok Hp.
    apply latestTarVersions_lookup in Hp as (l1 & l2 & -> & Hfirst). eauto.
  - intros url archives k p Hrec. eexists. split; [by apply fetch_records|]. split.
    + apply latestTarVersions_lookup.
    + intros (l1 & l2 & -> & Hfirst). by apply latestTarVersions_complete.
  - intros pre url post l1 p l2 k Hok Hfeeds Hrec Hfirst Hpost.
    apply (Hmerge pre url post (latestTarVersions (l1 ++ p :: l2)) k p);
      [done | done | by apply fetch_records | by apply latestTarVersions_complete |].
    intros u m' Hu (archives & Hrec' & [= ->])%fetch_ok.
    pose proof (latestTarVersions_sound archives k) as Hsound.
    destruct (latestTarVersions archives !! k) as [q|]; [|done].
    destruct Hsound as (l1' & l2' & -> & Hrel & Hkey & _).
    destruct (Hpost u _ q Hu Hrec'); [|done..].
    apply elem_of_app. right. apply list_elem_of_here.
Qed.

(** C2, amended.  When two candidates of one feed share their key and their
    exact release date, the first of the two stays and the later one is
    dropped, because a candidate replaces the entry only when it is
    released strictly after it: if [p] comes before [q] in the feed's
    records, both pass the filter with one key and one date, every candidate
    for the key before [p] is strictly older and no other one is newer, the
    feed's mapping holds [p] for the key. *)
Theorem tie_retains_first_processed (url : string)
    (l1 : list Package) (p : Package) (l2 : list Package) (q : Package)
    (l3 : list Package) :
  feedRecords http_Get json_Unmarshal url (l1 ++ p :: l2 ++ q :: l3) →
  relevant p = true → relevant q = true →
  keyOf p = keyOf q → Released p = Released q →
  (∀ c, c ∈ l1 → relevant c = true → keyOf c = keyOf p → Released c < Released p) →
  (∀ c, c ∈ l2 ++ l3 → relevant c = true → keyOf c = keyOf p →
        Released c ≤ Released p) →
  ∃ m, fetchLatestTarVersions http_Get json_Unmarshal url = (Some m, None) ∧
       m !! keyOf p = Some p.
Proof.
  intros Hrec Hp Hq Hkey Hdate Hbefore Hafter.
  eexists. split; [by apply fetch_records|].
  apply latestTarVersions_complete.
  split; [done|]. split; [done|]. split; [done|].
  intros c [Hc | [-> | Hc]%elem_of_cons]%elem_of_app Hc1 Hc2.
  - apply Hafter; [|done..]. apply elem_of_app. by left.
  - lia.
  - apply Hafter; [|done..]. apply elem_of_app. by right.
Qed.

(** C3.  The latest feed is the last one processed, and when every feed is
    read, each key for which the latest feed selected a package ends up with
    that package marked [Latest], whatever the other feeds hold for the key
    and whatever their dates. *)
Theorem latest_feed_entry_marked (latestFeed : string) (otherFeeds : list string)
    (m : gmap string Package) (k : string) (p : Package) :
  (∀ u, u ∈ otherFeeds → (fetchLatestTarVersions http_Get json_Unmarshal u).2 = None) →
  fetchLatestTarVersions http_Get json_Unmarshal latestFeed = (Some m, None) →
  m !! k = Some p →
  last (feedOrder latestFeed otherFeeds) = Some latestFeed ∧
  ∃ versions,
    getVersions http_Get json_Unmarshal latestFeed otherFeeds = (Some versions, None) ∧
    versions !! k = Some (setLatest p) ∧
    Latest <$> versions !! k = Some true.
Proof.
  intros Hothers Hfetch Hp. split; [apply last_snoc|].
  assert (∀ u, u ∈ feedOrder latestFeed otherFeeds →
               (fetchLatestTarVersions http_Get json_Unmarshal u).2 = None) as Hok.
  { intros u [Hu | ->%list_elem_of_singleton]%elem_of_app; [by apply Hothers|].
    by rewrite Hfetch. }
  unfold getVersions. rewrite loop_ok by done.
  eexists. split; [done|]. unfold feedOrder.
  rewrite (merged_last_feed _ _ latestFeed otherFeeds latestFeed [] ∅ m k p);
    [|done..|by intros u m' ?%elem_of_nil].
  by rewrite String.eqb_refl.
Qed.

(** C8.  [getVersions] stops at the first feed that cannot be fetched or
    parsed and returns that feed's error together with the nil mapping: as
    soon as some feed fails, nothing that was merged from the feeds before
    it is returned. *)
Theorem getVersions_aborts_without_mapping (latestFeed : string) (otherFeeds : list string) :
  (∀ pre url post x e,
     feedOrder latestFeed otherFeeds = pre ++ url :: post →
     (∀ u, u ∈ pre → (fetchLatestTarVersions http_Get json_Unmarshal u).2 = None) →
     fetchLatestTarVersions http_Get json_Unmarshal url = (x, Some e) →
     getVersions http_Get json_Unmarshal latestFeed otherFeeds = (None, Some e)) ∧
  (∀ u, u ∈ feedOrder latestFeed otherFeeds →
        (fetchLatestTarVersions http_Get json_Unmarshal u).2 ≠ None →
        ∃ e, getVersions http_Get json_Unmarshal latestFeed otherFeeds = (None, Some e)).
Proof.
  split.
  - intros pre url post x e Hfeeds Hpre Hurl.
    unfold getVersions. rewrite Hfeeds. by apply loop_error with x.
  - intros u Hu Hfail. by apply loop_fails with u.
Qed.

(** C10.  Every entry of the mapping a feed yields, and every entry of the
    final mapping, is filed under the key [MajorMinor] gives for the
    package's own version, and its archive passes the filter: its file name
    contains [.tar.gz], neither [cluster] nor [war], and [enterprise] only
    together with [standalone]. *)
Theorem resolved_entries_keyed_and_relevant (latestFeed : string) (otherFeeds : list string) :
  (∀ url m,
     fetchLatestTarVersions http_Get json_Unmarshal url = (Some m, None) →
     map_Forall entryOk m) ∧
  (∀ versions,
     getVersions http_Get json_Unmarshal latestFeed otherFeeds = (Some versions, None) →
     map_Forall entryOk versions) ∧
  (∀ key p,
     entryOk key p →
     key = Version.MajorMinor (Version p) ∧
     substringOf ".tar.gz" (GoPath.Base (ZipURL p)) ∧
     ¬ substringOf "cluster" (GoPath.Base (ZipURL p)) ∧
     ¬ substringOf "war" (GoPath.Base (ZipURL p)) ∧
     (substringOf "enterprise" (GoPath.Base (ZipURL p)) →
      substringOf "standalone" (GoPath.Base (ZipURL p)))).
Proof.
  split; [apply fetch_entryOk|]. split.
  - intros versions. apply loop_entryOk. apply map_Forall_empty.
  - intros key p [Hkey Hrel]. unfold relevant in Hrel.
    apply negb_true_iff, skipped_false in Hrel. tauto.
Qed.

End SelectorClaims.

(** ** The directory listing *)

Section Dirs.

Variable ioutil_ReadDir : string → string + list FileInfo.

Lemma collectDirs_filter (entries : list FileInfo) :
  collectDirs entries
  = Name <$> filter (λ e, IsDir e = true ∧ GoStrings.HasPrefix (Name e) "." = false) entries.
Proof.
  unfold collectDirs.
  induction entries as [|entry entries IH] using rev_ind; [done|].
  rewrite foldl_snoc, IH, filter_app, fmap_app.
  rewrite filter_cons, filter_nil.
  destruct (decide _) as [[Hdir Hdot]|Hno].
  - by rewrite Hdir, Hdot.
  - destruct (IsDir entry), (GoStrings.HasPrefix (Name entry) ".");
      simpl; rewrite ?app_nil_r; try done.
    by destruct Hno.
Qed.

(** Whatever [path] is, [getDirs] lists the working directory. *)
Lemma getDirs_lists_working_directory (path : string) :
  getDirs ioutil_ReadDir path = subdirsOf ioutil_ReadDir ".".
Proof.
  unfold getDirs, subdirsOf. destruct (ioutil_ReadDir "."); [done|].
  by rewrite collectDirs_filter.
Qed.

End Dirs.

(** C9 fails on the program: [getDirs] never looks at its argument and reads
    the working directory instead.  Asked for [releases], whose only
    subdirectory is [9.9], it returns the working directory's [4.2], [4.3]
    and [releases]; asked for a path that cannot be read, it returns the same
    list and no error. *)
Theorem getDirs_ignores_its_path :
  (∀ ReadDir path, getDirs ReadDir path = getDirs ReadDir ".") ∧
  getDirs Demo.ioutil_ReadDir "releases" = (["4.2"; "4.3"; "releases"], None) ∧
  subdirsOf Demo.ioutil_ReadDir "releases" = (["9.9"], None) ∧
  Demo.ioutil_ReadDir "missing" = inl "no such file or directory" ∧
  getDirs Demo.ioutil_ReadDir "missing" = (["4.2"; "4.3"; "releases"], None).
Proof. by repeat split. Qed.

(** ** The properties on the example feeds *)

Section Examples.

Import Demo.

Local Abbreviation fetch := (fetchLatestTarVersions Demo.http_Get Demo.json_Unmarshal).
Local Abbreviation versionsOf := (getVersions Demo.http_Get Demo.json_Unmarshal).
Local Abbreviation keyOf p := (Version.MajorMinor (Version p)).

Local Ltac by_cases_on H :=
  repeat (apply elem_of_cons in H as [-> | H]);
  [.. | by apply elem_of_nil in H].

Lemma archived_feed_records :
  feedRecords Demo.http_Get Demo.json_Unmarshal archiveUrl archivedRecords.
Proof.
  exists (list_byte_of_string "downloads"), (list_byte_of_string archivedText), [].
  split; [by vm_compute|]. split; [by apply (bool_decide_unpack _)|].
  split; [apply not_elem_of_nil | by vm_compute].
Qed.

Lemma feeds_all_read (u : string) :
  u ∈ feedOrder currentUrl [archiveUrl; eapUrl] → (fetch u).2 = None.
Proof. intros Hu. unfold feedOrder in Hu. simpl in Hu. by_cases_on Hu; by vm_compute. Qed.

(** C1 as worded fails: the archived feed holds 4.3.2 of 1 March 2021 and
    the current feed 4.3.1 of 10 January 2021, both pass the filter and both
    have the key 4.3, yet the final mapping keeps the earlier 4.3.1, because
    the current feed is merged last. *)
Lemma later_release_of_other_feed_overwritten :
  fetch archiveUrl = (Some {[ "4.3" := crowd432; "4.2" := crowd420 ]}, None) ∧
  fetch currentUrl = (Some {[ "4.3" := crowd431 ]}, None) ∧
  relevant crowd432 = true ∧ relevant crowd431 = true ∧
  keyOf crowd432 = "4.3" ∧ keyOf crowd431 = "4.3" ∧
  Released crowd431 = GoTime.Date 2021 1 10 ∧
  Released crowd432 = GoTime.Date 2021 3 1 ∧
  Released crowd431 < Released crowd432 ∧
  ∃ versions,
    versionsOf currentUrl [archiveUrl; eapUrl] = (Some versions, None) ∧
    versions !! "4.3" = Some (setLatest crowd431) ∧
    Released <$> versions !! "4.3" = Some (GoTime.Date 2021 1 10) ∧
    versions !! "4.3" ≠ Some crowd432 ∧
    versions !! "4.3" ≠ Some (setLatest crowd432).
Proof.
  do 9 (split; [by vm_compute|]).
  exists {[ "4.3" := setLatest crowd431; "4.2" := crowd420 ]}.
  by repeat split; vm_compute.
Qed.

Lemma current_feed_records :
  feedRecords Demo.http_Get Demo.json_Unmarshal currentUrl ([] ++ crowd431 :: []).
Proof.
  exists (list_byte_of_string "downloads"), (list_byte_of_string currentText), [].
  split; [by vm_compute|]. split; [by apply (bool_decide_unpack _)|].
  split; [apply not_elem_of_nil | by vm_compute].
Qed.

Lemma getVersions_last_feed_wins_witness :
  (∀ u, u ∈ feedOrder currentUrl [archiveUrl; eapUrl] → (fetch u).2 = None) ∧
  feedOrder currentUrl [archiveUrl; eapUrl] = [archiveUrl; eapUrl] ++ currentUrl :: [] ∧
  feedRecords Demo.http_Get Demo.json_Unmarshal currentUrl ([] ++ crowd431 :: []) ∧
  firstLatest "4.3" [] crowd431 [] ∧
  (∀ u archives q,
     u ∈ @nil string → feedRecords Demo.http_Get Demo.json_Unmarshal u archives →
     q ∈ archives → relevant q = true → keyOf q ≠ "4.3") ∧
  ∃ versions,
    versionsOf currentUrl [archiveUrl; eapUrl] = (Some versions, None) ∧
    versions !! "4.3" = Some (if String.eqb currentUrl currentUrl
                              then setLatest crowd431 else crowd431).
Proof.
  assert (firstLatest "4.3" [] crowd431 []) as Hfirst.
  { split; [by vm_compute|]. split; [by vm_compute|].
    split; by intros q ?%elem_of_nil. }
  assert (∀ u archives q,
            u ∈ @nil string → feedRecords Demo.http_Get Demo.json_Unmarshal u archives →
            q ∈ archives → relevant q = true → keyOf q ≠ "4.3") as Hpost
    by (by intros u archives q ?%elem_of_nil).
  split; [exact feeds_all_read|]. split; [reflexivity|].
  split; [exact current_feed_records|]. split; [exact Hfirst|]. split; [exact Hpost|].
  apply (proj2 (proj2 (proj2 (getVersions_last_feed_wins Demo.http_Get Demo.json_Unmarshal
                                currentUrl [archiveUrl; eapUrl])))
           [archiveUrl; eapUrl] currentUrl [] [] crowd431 [] "4.3").
  - exact feeds_all_read.
  - reflexivity.
  - exact current_feed_records.
  - exact Hfirst.
  - exact Hpost.
Defined.

(** C2 as worded fails: 4.2.0 and 4.2.1 stand in the archived feed with the
    key 4.2 and the same date, 4.2.1 is read last, and the feed's mapping
    keeps 4.2.0. *)
Lemma tie_drops_last_processed :
  archivedRecords = [crowd432; crowd420; crowd421; crowd432war] ∧
  feedRecords Demo.http_Get Demo.json_Unmarshal archiveUrl archivedRecords ∧
  relevant crowd420 = true ∧ relevant crowd421 = true ∧
  keyOf crowd420 = "4.2" ∧ keyOf crowd421 = "4.2" ∧
  Released crowd420 = Released crowd421 ∧
  ∃ m, fetch archiveUrl = (Some m, None) ∧
       m !! "4.2" = Some crowd420 ∧ m !! "4.2" ≠ Some crowd421.
Proof.
  split; [done|]. split; [exact archived_feed_records|].
  do 5 (split; [by vm_compute|]).
  exists {[ "4.3" := crowd432; "4.2" := crowd420 ]}.
  by repeat split; vm_compute.
Qed.

Lemma tie_retains_first_processed_witness :
  feedRecords Demo.http_Get Demo.json_Unmarshal archiveUrl
    ([crowd432] ++ crowd420 :: [] ++ crowd421 :: [crowd432war]) ∧
  relevant crowd420 = true ∧ relevant crowd421 = true ∧
  keyOf crowd420 = keyOf crowd421 ∧ Released crowd420 = Released crowd421 ∧
  (∀ c, c ∈ [crowd432] → relevant c = true → keyOf c = keyOf crowd420 →
        Released c < Released crowd420) ∧
  (∀ c, c ∈ [] ++ [crowd432war] → relevant c = true → keyOf c = keyOf crowd420 →
        Released c ≤ Released crowd420) ∧
  ∃ m, fetch archiveUrl = (Some m, None) ∧ m !! keyOf crowd420 = Some crowd420.
Proof.
  assert (∀ c, c ∈ [crowd432] → relevant c = true → keyOf c = keyOf crowd420 →
               Released c < Released crowd420) as Hbefore.
  { intros c Hc _ Hkey. by_cases_on Hc. by vm_compute in Hkey. }
  assert (∀ c, c ∈ [] ++ [crowd432war] → relevant c = true →
               keyOf c = keyOf crowd420 → Released c ≤ Released crowd420) as Hafter.
  { intros c Hc Hrel _. simpl in Hc. by_cases_on Hc. by vm_compute in Hrel. }
  split; [exact archived_feed_records|].
  do 4 (split; [by vm_compute|]).
  split; [exact Hbefore|]. split; [exact Hafter|].
  apply (tie_retains_first_processed Demo.http_Get Demo.json_Unmarshal archiveUrl
           [crowd432] crowd420 [] crowd421 [crowd432war]).
  - exact archived_feed_records.
  - by vm_compute.
  - by vm_compute.
  - by vm_compute.
  - by vm_compute.
  - exact Hbefore.
  - exact Hafter.
Defined.

Lemma latest_feed_entry_marked_witness :
  (∀ u, u ∈ [archiveUrl; eapUrl] → (fetch u).2 = None) ∧
  fetch currentUrl = (Some {[ "4.3" := crowd431 ]}, None) ∧
  ({[ "4.3" := crowd431 ]} : gmap string Package) !! "4.3" = Some crowd431 ∧
  last (feedOrder currentUrl [archiveUrl; eapUrl]) = Some currentUrl ∧
  ∃ versions,
    versionsOf currentUrl [archiveUrl; eapUrl] = (Some versions, None) ∧
    versions !! "4.3" = Some (setLatest crowd431) ∧
    Latest <$> versions !! "4.3" = Some true.
Proof.
  assert (∀ u, u ∈ [archiveUrl; eapUrl] → (fetch u).2 = None) as Hothers.
  { intros u Hu. by_cases_on Hu; by vm_compute. }
  split; [exact Hothers|]. split; [by vm_compute|]. split; [by vm_compute|].
  apply (latest_feed_entry_marked Demo.http_Get Demo.json_Unmarshal
           currentUrl [archiveUrl; eapUrl] {[ "4.3" := crowd431 ]} "4.3" crowd431).
  - exact Hothers.
  - by vm_compute.
  - by vm_compute.
Defined.

Lemma fetch_wrapper_contract_witness :
  Demo.http_Get currentUrl = inr (jsonp currentText) ∧
  jsonp currentText
    = list_byte_of_string "downloads" ++ x28 :: list_byte_of_string currentText ++ x29 :: [] ∧
  (x28 ∉ list_byte_of_string "downloads") ∧ (x29 ∉ @nil byte) ∧
  fetch currentUrl
    = match Demo.json_Unmarshal (list_byte_of_string currentText) with
      | inl msg => (None, Some (json_error msg))
      | inr archives => (Some (latestTarVersions archives), None)
      end.
Proof.
  assert (x28 ∉ list_byte_of_string "downloads") as Hopen
    by (by apply (bool_decide_unpack _)).
  split; [by vm_compute|]. split; [by vm_compute|].
  split; [exact Hopen|]. split; [apply not_elem_of_nil|].
  apply (proj2 (proj2 (fetch_wrapper_contract Demo.http_Get Demo.json_Unmarshal
                         currentUrl (jsonp currentText) eq_refl))
           (list_byte_of_string "downloads") (list_byte_of_string currentText) []).
  - by vm_compute.
  - exact Hopen.
  - apply not_elem_of_nil.
Defined.

Lemma getVersions_aborts_witness :
  feedOrder currentUrl [archiveUrl; eapUrl] = [archiveUrl] ++ eapUrl :: [currentUrl] ∧
  (∀ u, u ∈ [archiveUrl] →
        (fetchLatestTarVersions http_Get_outage Demo.json_Unmarshal u).2 = None) ∧
  fetchLatestTarVersions http_Get_outage Demo.json_Unmarshal eapUrl
    = (None, Some jsonpError) ∧
  getVersions http_Get_outage Demo.json_Unmarshal currentUrl [archiveUrl; eapUrl]
    = (None, Some jsonpError).
Proof.
  assert (∀ u, u ∈ [archiveUrl] →
            (fetchLatestTarVersions http_Get_outage Demo.json_Unmarshal u).2 = None)
    as Hpre.
  { intros u Hu. by_cases_on Hu. by vm_compute. }
  split; [reflexivity|]. split; [exact Hpre|]. split; [by vm_compute|].
  apply (proj1 (getVersions_aborts_without_mapping http_Get_outage Demo.json_Unmarshal
                  currentUrl [archiveUrl; eapUrl])
           [archiveUrl] eapUrl [currentUrl] None jsonpError).
  - reflexivity.
  - exact Hpre.
  - by vm_compute.
Defined.

Lemma resolved_entries_witness :
  versionsOf currentUrl [archiveUrl; eapUrl]
    = (Some {[ "4.3" := setLatest crowd431; "4.2" := crowd420 ]}, None) ∧
  map_Forall entryOk
    ({[ "4.3" := setLatest crowd431; "4.2" := crowd420 ]} : gmap string Package).
Proof.
  split; [by vm_compute|].
  apply (proj1 (proj2 (resolved_entries_keyed_and_relevant
                         Demo.http_Get Demo.json_Unmarshal
                         currentUrl [archiveUrl; eapUrl]))).
  by vm_compute.
Defined.

End Examples.

(** ** Further properties of the directory listing *)

Section DirsMore.

Variable ioutil_ReadDir : string → string + list FileInfo.

(** X1.  When the working directory can be read, [getDirs] returns no
    error and the names of exactly those entries that are directories and do
    not start with a dot, in the order of the listing; distinct entry names
    give distinct directory names. *)
Theorem getDirs_visible_directories (path : string) (entries : list FileInfo) :
  ioutil_ReadDir "." = inr entries →
  ∃ dirs,
    getDirs ioutil_ReadDir path = (dirs, None) ∧
    (∀ d, d ∈ dirs ↔
          ∃ e, e ∈ entries ∧ Name e = d ∧ IsDir e = true ∧
               GoStrings.HasPrefix (Name e) "." = false) ∧
    dirs `sublist_of` (Name <$> entries) ∧
    (NoDup (Name <$> entries) → NoDup dirs).
Proof.
  intros Hread. eexists. split.
  { unfold getDirs. by rewrite Hread. }
  rewrite collectDirs_filter.
  assert ((Name <$> filter (λ e, IsDir e = true ∧ GoStrings.HasPrefix (Name e) "." = false)
                      entries) `sublist_of` (Name <$> entries)) as Hsub.
  { apply fmap_sublist, sublist_filter. }
  split; [|split; [done|]].
  - intros d. rewrite list_elem_of_fmap. split.
    + intros (e & -> & (Hok & He)%list_elem_of_filter). exists e. tauto.
    + intros (e & He & <- & Hdir & Hdot). exists e. split; [done|].
      apply list_elem_of_filter. tauto.
  - intros Hnodup. by apply sublist_NoDup with (Name <$> entries).
Qed.

End DirsMore.

(** ** Further properties of the selection within one feed *)

Section SelectionMore.

Local Abbreviation keyOf p := (Version.MajorMinor (Version p)).

Lemma foldl_selectStep_filter (l : list Package) (m : gmap string Package) :
  foldl selectStep m (filter (λ a, relevant a = true) l) = foldl selectStep m l.
Proof.
  revert m. induction l as [|a l IH]; intros m; [done|].
  rewrite filter_cons. destruct (decide (relevant a = true)) as [Ha|Ha]; simpl.
  - apply IH.
  - rewrite selectStep_skipped by by destruct (relevant a). apply IH.
Qed.

(** X3.  Records the filter rejects play no part in the selection: dropping
    them from the feed beforehand gives the same mapping. *)
Theorem latestTarVersions_ignores_rejected (archives : list Package) :
  latestTarVersions (filter (λ a, relevant a = true) archives) = latestTarVersions archives.
Proof. apply foldl_selectStep_filter. Qed.

Lemma latestTarVersions_None (l : list Package) (k : string) :
  latestTarVersions l !! k = None ↔ ∀ q, q ∈ l → relevant q = true → keyOf q ≠ k.
Proof.
  pose proof (latestTarVersions_sound l k) as Hl. split.
  - intros Hnone. by rewrite Hnone in Hl.
  - intros Hno. destruct (latestTarVersions l !! k) as [p|]; [|done].
    destruct Hl as (l1 & l2 & -> & Hrel & Hkey & _).
    destruct (Hno p); [|done..]. apply elem_of_app. right. apply list_elem_of_here.
Qed.

(** X4.  Unless two candidates for one key carry the same release date, the
    order of the records in the feed does not matter: any rearrangement of
    the records gives the same mapping. *)
Theorem latestTarVersions_order_irrelevant (archives archives' : list Package) :
  archives ≡ₚ archives' →
  (∀ p q, p ∈ archives → q ∈ archives →
          relevant p = true → relevant q = true →
          keyOf p = keyOf q → Released p = Released q → p = q) →
  latestTarVersions archives = latestTarVersions archives'.
Proof.
  intros Hperm Hdistinct. apply map_eq. intros k.
  destruct (latestTarVersions archives !! k) as [p|] eqn:Hp.
  - apply latestTarVersions_lookup in Hp as (l1 & l2 & Hl & Hrel & Hkey & Hb & Ha).
    assert (∀ q, q ∈ archives → relevant q = true → keyOf q = k →
                 Released q ≤ Released p) as Hmax.
    { intros q Hq Hq1 Hq2. rewrite Hl in Hq.
      apply elem_of_app in Hq as [Hq | [-> | Hq]%elem_of_cons].
      - specialize (Hb q Hq Hq1 Hq2). lia.
      - lia.
      - by apply Ha. }
    assert (p ∈ archives) as Hin.
    { rewrite Hl. apply elem_of_app. right. apply list_elem_of_here. }
    destruct (latestTarVersions archives' !! k) as [p'|] eqn:Hp'.
    + apply latestTarVersions_lookup in Hp'
        as (l1' & l2' & Hl' & Hrel' & Hkey' & Hb' & Ha').
      assert (p' ∈ archives) as Hin'.
      { rewrite Hperm, Hl'. apply elem_of_app. right. apply list_elem_of_here. }
      assert (Released p ≤ Released p') as Hle.
      { assert (p ∈ l1' ++ p' :: l2') as Hp2 by by rewrite <- Hl', <- Hperm.
        apply elem_of_app in Hp2 as [Hq | [-> | Hq]%elem_of_cons].
        - specialize (Hb' p Hq Hrel Hkey). lia.
        - lia.
        - by apply Ha'. }
      pose proof (Hmax p' Hin' Hrel' Hkey') as Hge.
      f_equal. symmetry. apply Hdistinct; [done..|congruence|lia].
    + pose proof (proj1 (latestTarVersions_None _ _) Hp') as Hnone.
      destruct (Hnone p); [|done..]. by rewrite <- Hperm.
  - symmetry. apply latestTarVersions_None. intros q Hq.
    apply (proj1 (latestTarVersions_None _ _) Hp). by rewrite Hperm.
Qed.

Lemma latestTarVersions_order_witness :
  [Demo.crowd432; Demo.crowd420] ≡ₚ [Demo.crowd420; Demo.crowd432] ∧
  (∀ p q, p ∈ [Demo.crowd432; Demo.crowd420] → q ∈ [Demo.crowd432; Demo.crowd420] →
          relevant p = true → relevant q = true →
          keyOf p = keyOf q → Released p = Released q → p = q) ∧
  latestTarVersions [Demo.crowd432; Demo.crowd420]
  = latestTarVersions [Demo.crowd420; Demo.crowd432].
Proof.
  assert ([Demo.crowd432; Demo.crowd420] ≡ₚ [Demo.crowd420; Demo.crowd432]) as Hperm
    by apply Permutation_swap.
  assert (∀ p q, p ∈ [Demo.crowd432; Demo.crowd420] →
                 q ∈ [Demo.crowd432; Demo.crowd420] →
                 relevant p = true → relevant q = true →
                 keyOf p = keyOf q → Released p = Released q → p = q) as Hdistinct.
  { intros p q Hp Hq _ _ Hkey _.
    repeat (apply elem_of_cons in Hp as [-> | Hp]);
      repeat (apply elem_of_cons in Hq as [-> | Hq]);
      try (by apply elem_of_nil in Hp); try (by apply elem_of_nil in Hq);
      try reflexivity; by vm_compute in Hkey. }
  split; [exact Hperm|]. split; [exact Hdistinct|].
  exact (latestTarVersions_order_irrelevant _ _ Hperm Hdistinct).
Defined.

End SelectionMore.

(** ** Further properties of the merge *)

Section MergeMore.

Local Abbreviation mark url latestFeed p :=
  (if String.eqb url latestFeed then setLatest p else p).

Lemma foldl_insert_lookup (url latestFeed : string) (l : list (string * Package))
    (versions : gmap string Package) (k : string) :
  NoDup (l.*1) →
  foldl (λ acc kv, <[kv.1 := mark url latestFeed kv.2]> acc) versions l !! k =
  match (list_to_map l : gmap string Package) !! k with
  | Some p => Some (mark url latestFeed p)
  | None => versions !! k
  end.
Proof.
  intros Hnodup. induction l as [|[k' p'] l IH] using rev_ind.
  { simpl. by rewrite lookup_empty. }
  rewrite fmap_app in Hnodup. apply NoDup_app in Hnodup as (Hl & Hfresh & _).
  rewrite foldl_snoc. simpl.
  assert ((list_to_map (l ++ [(k', p')]) : gmap string Package) !! k
          = if decide (k' = k) then Some p' else (list_to_map l : gmap string Package) !! k)
    as ->.
  { destruct (decide (k' = k)) as [->|Hne].
    - apply elem_of_list_to_map_1.
      + rewrite fmap_app. apply NoDup_app. split; [done|]. split; [done|].
        apply NoDup_singleton.
      + apply elem_of_app. right. apply list_elem_of_here.
    - destruct ((list_to_map l : gmap string Package) !! k) as [p|] eqn:Hp.
      + apply elem_of_list_to_map_2 in Hp. apply elem_of_list_to_map_1.
        * rewrite fmap_app. apply NoDup_app. split; [done|]. split; [done|].
          apply NoDup_singleton.
        * apply elem_of_app. by left.
      + apply not_elem_of_list_to_map_1. rewrite fmap_app.
        apply not_elem_of_app. split.
        * by apply not_elem_of_list_to_map_2.
        * simpl. by intros ->%list_elem_of_singleton. }
  destruct (decide (k' = k)) as [->|Hne].
  - by rewrite lookup_insert_eq.
  - rewrite lookup_insert_ne by done. by apply IH.
Qed.

(** X5.  The inner loop of [getVersions] ranges over a Go map, whose order
    of iteration is not fixed.  In whatever order the entries of the feed's
    mapping are visited, the loop leaves the same result: the feed's entries,
    marked if the feed is the latest one, laid over the entries that were
    there before. *)
Theorem mergeFeed_any_iteration_order (url latestFeed : string)
    (newVersions versions : gmap string Package) (visited : list (string * Package)) :
  visited ≡ₚ map_to_list newVersions →
  foldl (λ acc kv, <[kv.1 := mark url latestFeed kv.2]> acc) versions visited
  = mergeFeed url latestFeed newVersions versions ∧
  mergeFeed url latestFeed newVersions versions
  = ((λ p, mark url latestFeed p) <$> newVersions) ∪ versions.
Proof.
  intros Hperm.
  assert (∀ o x : option Package,
            ((λ p, mark url latestFeed p) <$> o) ∪ x
            = match o with Some p => Some (mark url latestFeed p) | None => x end)
    as Hunion by (by intros [p|] [x|]).
  assert (mergeFeed url latestFeed newVersions versions
          = ((λ p, mark url latestFeed p) <$> newVersions) ∪ versions) as Hmerge.
  { apply map_eq. intros k.
    by rewrite mergeFeed_lookup, lookup_union, lookup_fmap, Hunion. }
  split; [|done]. rewrite Hmerge. apply map_eq. intros k.
  rewrite foldl_insert_lookup.
  - rewrite lookup_union, lookup_fmap, Hunion.
    assert ((list_to_map visited : gmap string Package) = newVersions) as ->; [|done].
    rewrite <- (list_to_map_to_list newVersions).
    apply list_to_map_proper; [|done].
    rewrite Hperm. apply NoDup_fst_map_to_list.
  - rewrite Hperm. apply NoDup_fst_map_to_list.
Qed.

Lemma mergeFeed_order_witness :
  [("4.2", Demo.crowd420); ("4.3", Demo.crowd432)]
    ≡ₚ map_to_list ({[ "4.3" := Demo.crowd432; "4.2" := Demo.crowd420 ]}
                      : gmap string Package) ∧
  foldl (λ acc kv, <[kv.1 := mark archiveUrl currentUrl kv.2]> acc)
        ({[ "4.3" := Demo.crowd431 ]} : gmap string Package)
        [("4.2", Demo.crowd420); ("4.3", Demo.crowd432)]
  = mergeFeed archiveUrl currentUrl
      {[ "4.3" := Demo.crowd432; "4.2" := Demo.crowd420 ]} {[ "4.3" := Demo.crowd431 ]}.
Proof.
  assert ([("4.2", Demo.crowd420); ("4.3", Demo.crowd432)]
            ≡ₚ map_to_list ({[ "4.3" := Demo.crowd432; "4.2" := Demo.crowd420 ]}
                              : gmap string Package)) as Hperm.
  { vm_compute. apply Permutation_swap. }
  split; [exact Hperm|].
  apply (proj1 (mergeFeed_any_iteration_order archiveUrl currentUrl _ _ _ Hperm)).
Defined.

End MergeMore.

(** ** Further properties of the feeds *)

Section FeedsMore.

Variable http_Get : string → string + list byte.
Variable json_Unmarshal : list byte → string + list Package.

Local Abbreviation fetch := (fetchLatestTarVersions http_Get json_Unmarshal).
Local Abbreviation merged latestFeed :=
  (foldl (λ acc u, mergeFeed u latestFeed (default ∅ (fetch u).1) acc)).

(** X2.  A key is present in the mapping of a feed exactly when some record
    of the feed passes the filter and has that key. *)
Theorem fetch_key_present_iff (url : string) (archives : list Package) (k : string) :
  feedRecords http_Get json_Unmarshal url archives →
  ∃ m, fetchLatestTarVersions http_Get json_Unmarshal url = (Some m, None) ∧
       (is_Some (m !! k) ↔
        ∃ q, q ∈ archives ∧ relevant q = true ∧ Version.MajorMinor (Version q) = k).
Proof.
  intros Hrec. eexists. split; [by apply fetch_records|].
  rewrite <- not_eq_None_Some, latestTarVersions_None. split.
  - intros Hsome.
    destruct (latestTarVersions archives !! k) as [p|] eqn:Hp.
    + apply latestTarVersions_lookup in Hp as (l1 & l2 & -> & Hrel & Hkey & _).
      exists p. split; [|done]. apply elem_of_app. right. apply list_elem_of_here.
    + destruct Hsome. by apply latestTarVersions_None.
  - intros (q & Hq & Hrel & Hkey) Hno. by apply (Hno q).
Qed.

(** Where the merged entry of a key comes from. *)
Lemma merged_lookup_origin (latestFeed : string) (urls : list string)
    (versions : gmap string Package) (k : string) (p : Package) :
  (∀ u, u ∈ urls → (fetch u).2 = None) →
  merged latestFeed versions urls !! k = Some p →
  (versions !! k = Some p ∧
   ∀ u m, u ∈ urls → fetch u = (Some m, None) → m !! k = None) ∨
  ∃ pre url post m q,
    urls = pre ++ url :: post ∧ fetch url = (Some m, None) ∧ m !! k = Some q ∧
    p = (if String.eqb url latestFeed then setLatest q else q) ∧
    ∀ u m', u ∈ post → fetch u = (Some m', None) → m' !! k = None.
Proof.
  induction urls as [|url urls IH] using rev_ind; intros Hok Hp.
  { left. split; [done|]. by intros u m ?%elem_of_nil. }
  rewrite foldl_snoc, mergeFeed_lookup in Hp.
  assert ((fetch url).2 = None) as Hurl.
  { apply Hok. apply elem_of_app. right. apply list_elem_of_here. }
  destruct (fetch url) as [x e] eqn:Hfetch. simpl in Hurl. subst e.
  destruct (fetch_ok _ _ _ _ Hfetch) as (archives & _ & ->). simpl in Hp.
  destruct (latestTarVersions archives !! k) as [q|] eqn:Hq.
  - right. exists urls, url, [], (latestTarVersions archives), q.
    injection Hp as <-. split; [done|]. split; [done|]. split; [done|].
    split; [done|]. by intros u m' ?%elem_of_nil.
  - destruct IH as [[Hv Hnone] | (pre & u & post & m & q & -> & Hu & Hm & -> & Hpost)];
      [|done|..].
    + intros u Hu. apply Hok. apply elem_of_app. by left.
    + left. split; [done|].
      intros u m [Hu | ->%list_elem_of_singleton]%elem_of_app Hm; [by eapply Hnone|].
      rewrite Hfetch in Hm. by injection Hm as <-.
    + right. exists pre, u, (post ++ [url]), m, q.
      split; [by rewrite <- app_assoc|]. split; [done|]. split; [done|]. split; [done|].
      intros u' m' [Hu' | ->%list_elem_of_singleton]%elem_of_app Hm'; [by eapply Hpost|].
      rewrite Hfetch in Hm'. by injection Hm' as <-.
Qed.

(** X6.  When every feed is read, the keys of the final mapping are the keys
    of the feeds taken together: a key is absent from the result exactly when
    it is absent from the mapping of every feed. *)
Theorem getVersions_keys_are_union (latestFeed : string) (otherFeeds : list string)
    (k : string) :
  (∀ u, u ∈ feedOrder latestFeed otherFeeds →
        (fetchLatestTarVersions http_Get json_Unmarshal u).2 = None) →
  ∃ versions,
    getVersions http_Get json_Unmarshal latestFeed otherFeeds = (Some versions, None) ∧
    (versions !! k = None ↔
     ∀ u m, u ∈ feedOrder latestFeed otherFeeds →
            fetchLatestTarVersions http_Get json_Unmarshal u = (Some m, None) →
            m !! k = None).
Proof.
  intros Hok. unfold getVersions. rewrite loop_ok by done.
  eexists. split; [done|]. split.
  - intros Hnone u m Hu Hm.
    destruct (m !! k) as [q|] eqn:Hq; [|done].
    apply list_elem_of_split in Hu as (pre & post & Hfeeds).
    assert (is_Some (merged latestFeed ∅ (pre ++ u :: post) !! k)) as [p Hp].
    { rewrite foldl_app. simpl.
      set (acc := mergeFeed u latestFeed (default ∅ (fetch u).1) _).
      assert (is_Some (acc !! k)) as Hacc.
      { unfold acc. rewrite mergeFeed_lookup, Hm. simpl. rewrite Hq. eauto. }
      clearbody acc. clear Hfeeds Hnone. revert acc Hacc.
      induction post as [|u' post IH]; intros acc Hacc; [done|].
      simpl. apply IH. rewrite mergeFeed_lookup.
      destruct (default ∅ (fetch u').1 !! k); eauto. }
    rewrite <- Hfeeds in Hp. congruence.
  - intros Hnone. rewrite merged_untouched; [apply lookup_empty|done..].
Qed.

(** X8.  When every feed is read, each entry of the final mapping is the
    entry some feed selected for that key, marked when that feed is the
    latest one, and no feed processed after it has the key: [getVersions]
    makes up no entry and keeps, for each key, the choice of the last feed
    that knows it. *)
Theorem getVersions_entry_origin (latestFeed : string) (otherFeeds : list string)
    (versions : gmap string Package) (k : string) (p : Package) :
  getVersions http_Get json_Unmarshal latestFeed otherFeeds = (Some versions, None) →
  versions !! k = Some p →
  ∃ pre url post m q,
    feedOrder latestFeed otherFeeds = pre ++ url :: post ∧
    fetchLatestTarVersions http_Get json_Unmarshal url = (Some m, None) ∧
    m !! k = Some q ∧
    p = (if String.eqb url latestFeed then setLatest q else q) ∧
    ∀ u m', u ∈ post →
            fetchLatestTarVersions http_Get json_Unmarshal u = (Some m', None) →
            m' !! k = None.
Proof.
  intros Hget Hp. unfold getVersions in Hget.
  assert (∀ u, u ∈ feedOrder latestFeed otherFeeds → (fetch u).2 = None) as Hok.
  { intros u Hu. by eapply loop_succeeds_inv. }
  rewrite loop_ok in Hget by done. injection Hget as <-.
  apply merged_lookup_origin in Hp as [[Hempty _] | Horigin]; [|done..].
  by rewrite lookup_empty in Hempty.
Qed.

(** X7.  If no decoded record comes with [Latest] already set, then an entry
    of the final mapping is marked [Latest] exactly when the latest feed has
    a package for its key. *)
Theorem getVersions_Latest_iff (latestFeed : string) (otherFeeds : list string)
    (versions : gmap string Package) (k : string) (p : Package) :
  (∀ u archives a,
     feedRecords http_Get json_Unmarshal u archives → a ∈ archives → Latest a = false) →
  getVersions http_Get json_Unmarshal latestFeed otherFeeds = (Some versions, None) →
  versions !! k = Some p →
  (Latest p = true ↔
   ∃ m, fetchLatestTarVersions http_Get json_Unmarshal latestFeed = (Some m, None) ∧
        is_Some (m !! k)).
Proof.
  intros Hplain Hget Hp.
  destruct (getVersions_entry_origin _ _ _ _ _ Hget Hp)
    as (pre & url & post & m & q & Hfeeds & Hm & Hq & -> & Hpost).
  assert (Latest q = false) as Hqplain.
  { destruct (fetch_ok _ _ _ _ Hm) as (archives & Hrec & [= ->]).
    apply latestTarVersions_lookup in Hq as (l1 & l2 & -> & _).
    apply (Hplain url _ q Hrec). apply elem_of_app. right. apply list_elem_of_here. }
  destruct (String.eqb_spec url latestFeed) as [->|Hne].
  - split; [|done]. intros _. exists m. split; [done|]. by rewrite Hq.
  - split; [by rewrite Hqplain|].
    intros (m' & Hm' & Hsome). exfalso.
    assert (latestFeed ∈ post) as Hin.
    { unfold feedOrder in Hfeeds.
      destruct post as [|u post _] using rev_ind.
      - apply (f_equal last) in Hfeeds. rewrite !last_snoc in Hfeeds. congruence.
      - rewrite app_comm_cons, app_assoc in Hfeeds.
        apply app_inj_tail in Hfeeds as [_ ->].
        apply elem_of_app. right. apply list_elem_of_here. }
    rewrite (Hpost latestFeed m' Hin Hm') in Hsome. by destruct Hsome.
Qed.

End FeedsMore.

(** ** The file operations *)

Section FilesFacts.

Variable outcome : list Op → Op → option string.
Variable filepath_Join : string → string → string.

Local Abbreviation opens := (openFiles outcome).

Lemma openAfter_app (done t1 t2 : list Op) (opened : list File) :
  openAfter outcome done (t1 ++ t2) opened
  = openAfter outcome (done ++ t1) t2 (openAfter outcome done t1 opened).
Proof.
  revert done opened. induction t1 as [|op t1 IH]; intros done opened.
  - by rewrite app_nil_r.
  - simpl. rewrite IH. by rewrite <- app_assoc.
Qed.

Lemma openFiles_app (h ops : list Op) :
  opens (h ++ ops) = openAfter outcome h ops (opens h).
Proof. unfold openFiles. by rewrite openAfter_app. Qed.

Lemma openAfter_bound (done todo : list Op) (opened : list File) :
  Forall (λ f, (f < length done)%nat) opened →
  Forall (λ f, (f < length (done ++ todo))%nat) (openAfter outcome done todo opened).
Proof.
  revert done opened. induction todo as [|op todo IH]; intros done opened Hb.
  - by rewrite app_nil_r.
  - simpl. replace (done ++ op :: todo) with ((done ++ [op]) ++ todo)
      by (by rewrite <- app_assoc).
    apply IH. rewrite length_app. simpl.
    assert (Forall (λ f, (f < length done + 1)%nat) opened) as Hb'.
    { eapply Forall_impl; [done|]. simpl. lia. }
    destruct op; try done.
    + destruct (outcome done _); [done|].
      apply Forall_app. split; [done|]. apply Forall_singleton. lia.
    + destruct (outcome done _); [done|].
      apply Forall_app. split; [done|]. apply Forall_singleton. lia.
    + apply Forall_forall. intros g [_ Hg]%list_elem_of_filter.
      by apply (proj1 (Forall_forall _ _) Hb').
Qed.

Lemma openFiles_bound (h : list Op) : Forall (λ f, (f < length h)%nat) (opens h).
Proof. apply (openAfter_bound [] h []). constructor. Qed.

Lemma filter_fresh (opened : list File) (n : File) :
  Forall (λ f, (f < n)%nat) opened → filter (λ g : File, g ≠ n) opened = opened.
Proof.
  intros Hb. induction Hb as [|f opened Hf Hb IH]; [done|].
  rewrite filter_cons_True by lia. by rewrite IH.
Qed.

Lemma filter_close_last (opened : list File) (n : File) :
  Forall (λ f, (f < n)%nat) opened →
  filter (λ g : File, g ≠ n) (opened ++ [n]) = opened.
Proof.
  intros Hb. rewrite filter_app, filter_fresh by done.
  rewrite filter_cons_False, filter_nil by (by intros Hne).
  by rewrite app_nil_r.
Qed.

Local Ltac run := unfold mbind, IO_bind, mret, IO_ret, open, call; simpl.

Lemma copyFile_balanced (src dst : string) (perm : Z) (h : list Op) :
  openFiles outcome (copyFile outcome src dst perm h).1 = openFiles outcome h.
Proof.
  pose proof (openFiles_bound h) as Hb.
  unfold copyFile. run.
  destruct (outcome h (os_Open src)) as [e|] eqn:Hin; simpl.
  { rewrite openFiles_app. simpl. by rewrite Hin. }
  destruct (outcome (h ++ [os_Open src]) _) as [e|] eqn:Hout; simpl.
  { rewrite <- !app_assoc. simpl. rewrite openFiles_app. simpl.
    rewrite Hin, Hout. by apply filter_close_last. }
  rewrite <- !app_assoc. simpl. rewrite openFiles_app. simpl.
  rewrite Hin, Hout. rewrite length_app. simpl.
  assert (Forall (λ f, (f < length h + 1)%nat) (opens h ++ [length h])) as Hb'.
  { apply Forall_app. split; [|apply Forall_singleton; lia].
    eapply Forall_impl; [done|]. simpl. lia. }
  rewrite filter_close_last by done. by apply filter_close_last.
Qed.

(** X9.  [copyFile] closes what it opens: after it returns, whatever failed
    on the way, the files open are exactly those that were open before. *)
Theorem copyFile_leaves_no_file_open (src dst : string) (perm : Z) (h : list Op) :
  openFiles outcome (copyFile outcome src dst perm h).1 = openFiles outcome h.
Proof. apply copyFile_balanced. Qed.

(** X10.  [copyFile] reports success exactly when opening the source,
    opening the destination, copying and closing the destination all
    succeeded, and what it returns is fixed on every path: the error of
    opening the source, with the destination never opened; else the error of
    opening the destination, after the source is closed; else the error of
    the copy, whatever closing the two files returns; else whatever closing
    the destination returns.  What closing the source returns is returned on
    no path. *)
Theorem copyFile_result (src dst : string) (perm : Z) (h : list Op) :
  let opened_src := h ++ [os_Open src] in
  let opened_dst := opened_src ++ [os_OpenFile dst [O_CREATE; O_WRONLY; O_TRUNC] perm] in
  let copied := opened_dst ++ [io_Copy (S (length h)) (length h)] in
  ((copyFile outcome src dst perm h).2 = None ↔
     outcome h (os_Open src) = None ∧
     outcome opened_src (os_OpenFile dst [O_CREATE; O_WRONLY; O_TRUNC] perm) = None ∧
     outcome opened_dst (io_Copy (S (length h)) (length h)) = None ∧
     outcome copied (File_Close (S (length h))) = None) ∧
  (∀ e, outcome h (os_Open src) = Some e →
        copyFile outcome src dst perm h = (opened_src, Some e)) ∧
  (∀ e, outcome h (os_Open src) = None →
        outcome opened_src (os_OpenFile dst [O_CREATE; O_WRONLY; O_TRUNC] perm) = None →
        outcome opened_dst (io_Copy (S (length h)) (length h)) = Some e →
        copyFile outcome src dst perm h
        = (copied ++ [File_Close (S (length h)); File_Close (length h)], Some e)) ∧
  (∀ e, outcome h (os_Open src) = None →
        outcome opened_src (os_OpenFile dst [O_CREATE; O_WRONLY; O_TRUNC] perm) = Some e →
        copyFile outcome src dst perm h
        = (opened_dst ++ [File_Close (length h)], Some e)) ∧
  (outcome h (os_Open src) = None →
   outcome opened_src (os_OpenFile dst [O_CREATE; O_WRONLY; O_TRUNC] perm) = None →
   outcome opened_dst (io_Copy (S (length h)) (length h)) = None →
   copyFile outcome src dst perm h
   = (copied ++ [File_Close (S (length h)); File_Close (length h)],
      outcome copied (File_Close (S (length h))))).
Proof.
  intros opened_src opened_dst copied. subst opened_src opened_dst copied.
  unfold copyFile. run.
  destruct (outcome h (os_Open src)) as [e|] eqn:Hin; simpl.
  { split; [split; [done|by intros [? _]]|]. split; [by intros ? [= <-]|].
    by repeat split. }
  destruct (outcome (h ++ [os_Open src]) _) as [e|] eqn:Hout; simpl.
  { split; [split; [done|by intros (_ & ? & _)]|]. split; [done|]. split; [done|].
    split; [|done]. by intros e' _ [= <-]. }
  rewrite length_app. simpl. rewrite Nat.add_1_r.
  destruct (outcome _ (io_Copy _ _)) as [e|] eqn:Hcopy; simpl.
  { split; [split; [done|by intros (_ & _ & ? & _)]|]. split; [done|].
    split; [|by split]. intros e' _ _ [= <-]. by rewrite <- !app_assoc. }
  split; [split; [done | by intros (_ & _ & _ & ?)]|]. split; [done|].
  split; [done|]. split; [done|]. intros _ _ _. by rewrite <- !app_assoc.
Qed.


Lemma copyFile_extends (src dst : string) (perm : Z) (h : list Op) :
  ∃ ops, (copyFile outcome src dst perm h).1 = h ++ ops ∧
         ∀ f p, Template_Execute f p ∉ ops.
Proof.
  unfold copyFile. run.
  destruct (outcome h (os_Open src)); simpl.
  { eexists. split; [done|]. intros f p [=]%list_elem_of_singleton. }
  destruct (outcome (h ++ [os_Open src]) _); simpl.
  - rewrite <- !app_assoc. eexists. split; [done|]. simpl. intros f p Hin.
    repeat (apply elem_of_cons in Hin as [[=] | Hin]). by apply elem_of_nil in Hin.
  - rewrite <- !app_assoc. eexists. split; [done|]. simpl. intros f p Hin.
    repeat (apply elem_of_cons in Hin as [[=] | Hin]). by apply elem_of_nil in Hin.
Qed.

Lemma update_balanced (dir : string) (pkg : Package) (h : list Op) :
  opens (update outcome filepath_Join dir pkg h).1 = opens h.
Proof.
  pose proof (openFiles_bound h) as Hb.
  unfold update. run.
  set (dockerfile := os_OpenFile _ _ _).
  destruct (outcome h dockerfile) as [e|] eqn:Hf; simpl.
  { rewrite openFiles_app. simpl. by rewrite Hf. }
  assert (opens (h ++ [dockerfile]) = opens h ++ [length h]) as Hopened.
  { rewrite openFiles_app. simpl. by rewrite Hf. }
  destruct (outcome (h ++ [dockerfile]) _) as [e|] eqn:Hexec; simpl.
  { rewrite <- !app_assoc. simpl.
    rewrite (openFiles_app h). simpl. rewrite Hf. by apply filter_close_last. }
  set (h2 := (h ++ [dockerfile]) ++ [Template_Execute (length h) pkg]).
  assert (opens h2 = opens h ++ [length h]) as Hopened2.
  { unfold h2. by rewrite openFiles_app, Hopened. }
  pose proof (copyFile_balanced "docker-entrypoint.sh"
                (filepath_Join dir "docker-entrypoint.sh") (mode 7 6 4) h2) as Hcopy.
  destruct (copyFile outcome _ _ _ h2) as [h3 [e|]]; simpl in *.
  - rewrite openFiles_app. simpl. rewrite Hcopy, Hopened2. by apply filter_close_last.
  - rewrite <- app_assoc. simpl. rewrite openFiles_app. simpl.
    rewrite Hcopy, Hopened2. by apply filter_close_last.
Qed.

(** X11.  [update] closes the Dockerfile it opens on every path out, so that
    after it returns, whatever failed, the files open are those that were
    open before. *)
Theorem update_leaves_no_file_open (dir : string) (pkg : Package) (h : list Op) :
  openFiles outcome (update outcome filepath_Join dir pkg h).1 = openFiles outcome h.
Proof. apply update_balanced. Qed.

Lemma update_success (dir : string) (pkg : Package) (h h' : list Op) :
  update outcome filepath_Join dir pkg h = (h', None) →
  h' = h ++ [os_OpenFile (filepath_Join dir "Dockerfile")
               [O_CREATE; O_WRONLY; O_TRUNC] (mode 6 4 4);
             Template_Execute (length h) pkg;
             os_Open "docker-entrypoint.sh";
             os_OpenFile (filepath_Join dir "docker-entrypoint.sh")
               [O_CREATE; O_WRONLY; O_TRUNC] (mode 7 6 4);
             io_Copy (length h + 3)%nat (length h + 2)%nat;
             File_Close (length h + 3)%nat;
             File_Close (length h + 2)%nat;
             os_Chmod (filepath_Join dir "docker-entrypoint.sh") (mode 7 6 4);
             File_Close (length h)].
Proof.
  unfold update, copyFile. run.
  destruct (outcome h _); simpl; [done|].
  destruct (outcome (h ++ _) (Template_Execute _ _)); simpl; [done|].
  destruct (outcome _ (os_Open _)); simpl; [done|].
  destruct (outcome _ (os_OpenFile _ _ _)); simpl; [done|].
  destruct (outcome _ (io_Copy _ _)); simpl; [done|].
  destruct (outcome _ (File_Close _)); simpl; [done|].
  destruct (outcome _ (os_Chmod _ _)); simpl; [done|].
  intros [= <-]. rewrite !length_app. simpl. rewrite <- !app_assoc. simpl.
  by replace (length h + 1 + 1)%nat with (length h + 2)%nat by lia;
     replace (length h + 2 + 1)%nat with (length h + 3)%nat by lia.
Qed.

(** X12.  An [update] that reports success has made exactly these calls, in
    this order: create or truncate the Dockerfile of the directory with mode
    0644, render the template with the package into it, open the entrypoint
    script, create or truncate its copy in the directory with mode 0764,
    copy, close the copy, close the script, set the mode of the copy to 0764,
    and close the Dockerfile last. *)
Theorem update_success_calls (dir : string) (pkg : Package) (h h' : list Op) :
  update outcome filepath_Join dir pkg h = (h', None) →
  h' = h ++ [os_OpenFile (filepath_Join dir "Dockerfile")
               [O_CREATE; O_WRONLY; O_TRUNC] (mode 6 4 4);
             Template_Execute (length h) pkg;
             os_Open "docker-entrypoint.sh";
             os_OpenFile (filepath_Join dir "docker-entrypoint.sh")
               [O_CREATE; O_WRONLY; O_TRUNC] (mode 7 6 4);
             io_Copy (length h + 3)%nat (length h + 2)%nat;
             File_Close (length h + 3)%nat;
             File_Close (length h + 2)%nat;
             os_Chmod (filepath_Join dir "docker-entrypoint.sh") (mode 7 6 4);
             File_Close (length h)] ∧
  mode 6 4 4 = 420 ∧ mode 7 6 4 = 500.
Proof. intros Hok. split; [by apply update_success | done]. Qed.

(** What [update] adds to the history: only the one package is rendered, and
    only into the Dockerfile of the directory, opened just before. *)
Lemma update_extends (dir : string) (pkg : Package) (h : list Op) :
  ∃ ops, (update outcome filepath_Join dir pkg h).1 = h ++ ops ∧
         ∀ f p, Template_Execute f p ∈ ops →
                p = pkg ∧
                os_OpenFile (filepath_Join dir "Dockerfile")
                  [O_CREATE; O_WRONLY; O_TRUNC] (mode 6 4 4) ∈ ops.
Proof.
  unfold update. run.
  set (dockerfile := os_OpenFile _ _ _).
  destruct (outcome h dockerfile) as [e|]; simpl.
  { eexists. split; [done|]. intros f p [=]%list_elem_of_singleton. }
  destruct (outcome (h ++ [dockerfile]) _) as [e|]; simpl.
  { rewrite <- !app_assoc. eexists. split; [done|]. simpl. intros f p Hin.
    apply elem_of_cons in Hin as [[=] | Hin].
    apply elem_of_cons in Hin as [[= -> ->] | Hin].
    - split; [done|]. apply list_elem_of_here.
    - apply elem_of_cons in Hin as [[=] | Hin]. by apply elem_of_nil in Hin. }
  set (h2 := (h ++ [dockerfile]) ++ [Template_Execute (length h) pkg]).
  destruct (copyFile_extends "docker-entrypoint.sh"
              (filepath_Join dir "docker-entrypoint.sh") (mode 7 6 4) h2)
    as (ops & Hops & Hnone).
  destruct (copyFile outcome _ _ _ h2) as [h3 [e|]]; simpl in *; subst h3.
  - unfold h2. rewrite <- !app_assoc. eexists. split; [done|]. simpl. intros f p Hin.
    apply elem_of_cons in Hin as [[=] | Hin].
    apply elem_of_cons in Hin as [[= -> ->] | Hin].
    + split; [done|]. apply list_elem_of_here.
    + apply elem_of_app in Hin as [Hin | Hin]; [by apply Hnone in Hin|].
      apply elem_of_cons in Hin as [[=] | Hin]. by apply elem_of_nil in Hin.
  - unfold h2. rewrite <- !app_assoc. eexists. split; [done|]. simpl. intros f p Hin.
    apply elem_of_cons in Hin as [[=] | Hin].
    apply elem_of_cons in Hin as [[= -> ->] | Hin].
    + split; [done|]. apply list_elem_of_here.
    + apply elem_of_app in Hin as [Hin | Hin]; [by apply Hnone in Hin|].
      repeat (apply elem_of_cons in Hin as [[=] | Hin]). by apply elem_of_nil in Hin.
Qed.

(** Where [update] renders: at most once, the one package, into the file
    that the call just before opened as the Dockerfile of the directory. *)
Lemma update_renders (dir : string) (pkg : Package) (h : list Op) :
  ∃ ops, (update outcome filepath_Join dir pkg h).1 = h ++ ops ∧
         ∀ f p, Template_Execute f p ∈ ops →
                p = pkg ∧ f = length h ∧
                ∃ post,
                  ops = [os_OpenFile (filepath_Join dir "Dockerfile")
                           [O_CREATE; O_WRONLY; O_TRUNC] (mode 6 4 4);
                         Template_Execute (length h) pkg] ++ post.
Proof.
  unfold update. run.
  set (dockerfile := os_OpenFile _ _ _).
  destruct (outcome h dockerfile) as [e|]; simpl.
  { eexists. split; [done|]. intros f p [=]%list_elem_of_singleton. }
  destruct (outcome (h ++ [dockerfile]) _) as [e|]; simpl.
  { rewrite <- !app_assoc. eexists. split; [done|]. simpl. intros f p Hin.
    apply elem_of_cons in Hin as [[=] | Hin].
    apply elem_of_cons in Hin as [[= -> ->] | Hin].
    - split; [done|]. split; [done|]. by eexists.
    - apply elem_of_cons in Hin as [[=] | Hin]. by apply elem_of_nil in Hin. }
  set (h2 := (h ++ [dockerfile]) ++ [Template_Execute (length h) pkg]).
  destruct (copyFile_extends "docker-entrypoint.sh"
              (filepath_Join dir "docker-entrypoint.sh") (mode 7 6 4) h2)
    as (ops & Hops & Hnone).
  destruct (copyFile outcome _ _ _ h2) as [h3 [e|]]; simpl in *; subst h3.
  - unfold h2. rewrite <- !app_assoc. eexists. split; [done|]. simpl. intros f p Hin.
    apply elem_of_cons in Hin as [[=] | Hin].
    apply elem_of_cons in Hin as [[= -> ->] | Hin].
    + split; [done|]. split; [done|]. by eexists.
    + apply elem_of_app in Hin as [Hin | Hin]; [by apply Hnone in Hin|].
      apply elem_of_cons in Hin as [[=] | Hin]. by apply elem_of_nil in Hin.
  - unfold h2. rewrite <- !app_assoc. eexists. split; [done|]. simpl. intros f p Hin.
    apply elem_of_cons in Hin as [[=] | Hin].
    apply elem_of_cons in Hin as [[= -> ->] | Hin].
    + split; [done|]. split; [done|]. by eexists.
    + apply elem_of_app in Hin as [Hin | Hin]; [by apply Hnone in Hin|].
      repeat (apply elem_of_cons in Hin as [[=] | Hin]). by apply elem_of_nil in Hin.
Qed.

End FilesFacts.

(** ** The run of main *)

Section MainFacts.

Variable outcome : list Op → Op → option string.
Variable filepath_Join : string → string → string.
Variable http_Get : string → string + list byte.
Variable json_Unmarshal : list byte → string + list Package.
Variable ioutil_ReadDir : string → string + list FileInfo.

Local Abbreviation updateAll := (updateDirs outcome filepath_Join).
Local Abbreviation updateOne := (update outcome filepath_Join).
Local Abbreviation dockerfile dir :=
  (os_OpenFile (filepath_Join dir "Dockerfile") [O_CREATE; O_WRONLY; O_TRUNC] (mode 6 4 4)).

Local Ltac run := unfold mbind, IO_bind, mret, IO_ret; simpl.

Lemma updateDirs_cons (versions : gmap string Package) (dir : string)
    (dirs : list string) (h : list Op) :
  updateAll versions (dir :: dirs) h =
  match versions !! dir with
  | None => (h, Some (cant_find_url_for_version dir))
  | Some p =>
      match updateOne dir p h with
      | (h', Some e) => (h', Some (error_updating dir e))
      | (h', None) => updateAll versions dirs h'
      end
  end.
Proof.
  simpl. destruct (versions !! dir) as [p|]; [|done]. run.
  by destruct (updateOne dir p h) as [h' [e|]].
Qed.

Lemma updateDirs_app (versions : gmap string Package) (pre post : list string)
    (h h' : list Op) :
  updateAll versions pre h = (h', None) →
  updateAll versions (pre ++ post) h = updateAll versions post h'.
Proof.
  revert h. induction pre as [|dir pre IH]; intros h Hpre.
  { simpl in Hpre. by injection Hpre as <-. }
  rewrite <- app_comm_cons, updateDirs_cons. rewrite updateDirs_cons in Hpre.
  destruct (versions !! dir) as [p|]; [|done].
  destruct (updateOne dir p h) as [h1 [e|]]; [done|]. by apply IH.
Qed.

Lemma updateDirs_balanced (versions : gmap string Package) (dirs : list string)
    (h : list Op) :
  openFiles outcome (updateAll versions dirs h).1 = openFiles outcome h.
Proof.
  revert h. induction dirs as [|dir dirs IH]; intros h; [done|].
  rewrite updateDirs_cons. destruct (versions !! dir) as [p|]; [|done].
  pose proof (update_balanced outcome filepath_Join dir p h) as Hone.
  destruct (updateOne dir p h) as [h1 [e|]]; simpl in *; [done|].
  by rewrite IH.
Qed.

Lemma updateDirs_extends (versions : gmap string Package) (dirs : list string)
    (h : list Op) :
  ∃ ops, (updateAll versions dirs h).1 = h ++ ops ∧
         ∀ f p, Template_Execute f p ∈ ops →
                ∃ dir, dir ∈ dirs ∧ versions !! dir = Some p ∧ dockerfile dir ∈ ops.
Proof.
  revert h. induction dirs as [|dir dirs IH]; intros h.
  { exists []. split; [by rewrite app_nil_r|]. by intros f p ?%elem_of_nil. }
  rewrite updateDirs_cons. destruct (versions !! dir) as [p|] eqn:Hp.
  2:{ exists []. split; [by rewrite app_nil_r|]. by intros f q ?%elem_of_nil. }
  destruct (update_extends outcome filepath_Join dir p h) as (ops & Hops & Hexec).
  destruct (updateOne dir p h) as [h1 [e|]]; simpl in *; subst h1.
  - exists ops. split; [done|]. intros f q Hq.
    destruct (Hexec f q Hq) as [-> Hopen]. exists dir.
    split; [apply list_elem_of_here | done].
  - destruct (IH (h ++ ops)) as (ops' & Hops' & Hexec').
    exists (ops ++ ops'). split; [by rewrite Hops', app_assoc|].
    intros f q [Hq | Hq]%elem_of_app.
    + destruct (Hexec f q Hq) as [-> Hopen]. exists dir.
      split; [apply list_elem_of_here|]. split; [done|]. apply elem_of_app. by left.
    + destruct (Hexec' f q Hq) as (d & Hd & Hv & Hopen). exists d.
      split; [by apply list_elem_of_further|]. split; [done|]. apply elem_of_app. by right.
Qed.

Lemma updateDirs_renders (versions : gmap string Package) (dirs : list string)
    (h : list Op) :
  ∃ ops, (updateAll versions dirs h).1 = h ++ ops ∧
         ∀ f p, Template_Execute f p ∈ ops →
                ∃ dir mid post,
                  dir ∈ dirs ∧ versions !! dir = Some p ∧ f = length (h ++ mid) ∧
                  ops = mid ++ [dockerfile dir; Template_Execute f p] ++ post.
Proof.
  revert h. induction dirs as [|dir dirs IH]; intros h.
  { exists []. split; [by rewrite app_nil_r|]. by intros f p ?%elem_of_nil. }
  rewrite updateDirs_cons. destruct (versions !! dir) as [p|] eqn:Hp.
  2:{ exists []. split; [by rewrite app_nil_r|]. by intros f q ?%elem_of_nil. }
  destruct (update_renders outcome filepath_Join dir p h) as (ops & Hops & Hexec).
  destruct (updateOne dir p h) as [h1 [e|]]; simpl in *; subst h1.
  - exists ops. split; [done|]. intros f q Hq.
    destruct (Hexec f q Hq) as (-> & -> & post & ->).
    exists dir, [], post. rewrite app_nil_r.
    split; [apply list_elem_of_here | done].
  - destruct (IH (h ++ ops)) as (ops' & Hops' & Hexec').
    exists (ops ++ ops'). split; [by rewrite Hops', app_assoc|].
    intros f q [Hq | Hq]%elem_of_app.
    + destruct (Hexec f q Hq) as (-> & -> & post & ->).
      exists dir, [], (post ++ ops'). rewrite app_nil_r.
      split; [apply list_elem_of_here|]. split; [done|]. split; [done|].
      reflexivity.
    + destruct (Hexec' f q Hq) as (d & mid & post & Hd & Hv & -> & ->).
      exists d, (ops ++ mid), post.
      split; [by apply list_elem_of_further|]. split; [done|].
      split; [by rewrite app_assoc | by rewrite <- !app_assoc].
Qed.

Lemma updateDirs_success (versions : gmap string Package) (dirs : list string)
    (h h' : list Op) (dir : string) :
  updateAll versions dirs h = (h', None) → dir ∈ dirs →
  ∃ p mid post,
    versions !! dir = Some p ∧
    h' = (h ++ mid) ++ [dockerfile dir; Template_Execute (length (h ++ mid)) p] ++ post ∧
    os_Chmod (filepath_Join dir "docker-entrypoint.sh") (mode 7 6 4) ∈ post.
Proof.
  revert h. induction dirs as [|d dirs IH]; intros h Hok Hdir.
  { by apply elem_of_nil in Hdir. }
  rewrite updateDirs_cons in Hok. destruct (versions !! d) as [p|] eqn:Hp; [|done].
  destruct (updateOne d p h) as [h1 [e|]] eqn:Hone; [done|].
  assert (∃ tail, h' = h1 ++ tail) as [tail ->].
  { destruct (updateDirs_extends versions dirs h1) as (ops & Hops & _).
    rewrite Hok in Hops. eauto. }
  pose proof (update_success _ _ _ _ _ _ Hone) as Hh1.
  apply elem_of_cons in Hdir as [-> | Hdir].
  - exists p, [],
      ([os_Open "docker-entrypoint.sh";
        os_OpenFile (filepath_Join d "docker-entrypoint.sh")
          [O_CREATE; O_WRONLY; O_TRUNC] (mode 7 6 4);
        io_Copy (length h + 3)%nat (length h + 2)%nat;
        File_Close (length h + 3)%nat; File_Close (length h + 2)%nat;
        os_Chmod (filepath_Join d "docker-entrypoint.sh") (mode 7 6 4);
        File_Close (length h)] ++ tail).
    split; [done|]. rewrite app_nil_r. split.
    + rewrite Hh1 at 1. by rewrite <- app_assoc.
    + do 5 apply list_elem_of_further. apply list_elem_of_here.
  - destruct (IH h1 Hok Hdir) as (q & mid & post & Hq & Hh' & Hchmod).
    assert (∃ ops, h1 = h ++ ops) as [ops Hops] by eauto.
    exists q, (ops ++ mid), post. split; [done|]. split; [|done].
    rewrite Hh'. rewrite Hops. by rewrite <- !app_assoc.
Qed.

Lemma main_run (h : list Op) :
  main outcome filepath_Join http_Get json_Unmarshal ioutil_ReadDir h =
  match getDirs ioutil_ReadDir "." with
  | (_, Some err) => (h, Some (error_fetching_version_dirs err))
  | (versionDirs, None) =>
      match getVersions http_Get json_Unmarshal currentUrl [archiveUrl; eapUrl] with
      | (_, Some err) => (h, Some (error_reading_atlassian_feeds err))
      | (versions, None) => updateAll (default ∅ versions) versionDirs h
      end
  end.
Proof.
  unfold main. destruct (getDirs _ _) as [dirs [e|]]; [done|].
  by destruct (getVersions _ _ _ _) as [versions [e|]].
Qed.

Lemma MajorMinor_of_key (v : string) :
  Version.MajorMinor (Version.MajorMinor v) = Version.MajorMinor v.
Proof.
  destruct (MajorMinor_shape v) as [-> | (x & y & Hx & Hy & ->)]; [done|].
  by apply MajorMinor_one_cut.
Qed.


(** X13.  A visible directory for which the feeds give no package stops the
    run: once the directories before it are updated, [main] reports the
    directory and exits, and the directories after it are not touched. *)
Theorem main_stops_at_missing_version (pre : list string) (dir : string)
    (post : list string) (versions : gmap string Package) (h h' : list Op) :
  getDirs ioutil_ReadDir "." = (pre ++ dir :: post, None) →
  getVersions http_Get json_Unmarshal currentUrl [archiveUrl; eapUrl]
    = (Some versions, None) →
  updateDirs outcome filepath_Join versions pre h = (h', None) →
  versions !! dir = None →
  main outcome filepath_Join http_Get json_Unmarshal ioutil_ReadDir h
  = (h', Some (cant_find_url_for_version dir)).
Proof.
  intros Hdirs Hversions Hpre Hdir.
  rewrite main_run, Hdirs, Hversions. simpl.
  rewrite (updateDirs_app _ _ _ _ _ Hpre), updateDirs_cons. by rewrite Hdir.
Qed.

(** X14.  The first [update] that fails stops the run: [main] reports the
    directory with the error and exits, leaving the directories after it
    untouched and those before it updated. *)
Theorem main_stops_at_failed_update (pre : list string) (dir : string)
    (post : list string) (versions : gmap string Package) (p : Package)
    (h h' h'' : list Op) (e : string) :
  getDirs ioutil_ReadDir "." = (pre ++ dir :: post, None) →
  getVersions http_Get json_Unmarshal currentUrl [archiveUrl; eapUrl]
    = (Some versions, None) →
  updateDirs outcome filepath_Join versions pre h = (h', None) →
  versions !! dir = Some p →
  update outcome filepath_Join dir p h' = (h'', Some e) →
  main outcome filepath_Join http_Get json_Unmarshal ioutil_ReadDir h
  = (h'', Some (error_updating dir e)).
Proof.
  intros Hdirs Hversions Hpre Hdir Hfail.
  rewrite main_run, Hdirs, Hversions. simpl.
  rewrite (updateDirs_app _ _ _ _ _ Hpre), updateDirs_cons. by rewrite Hdir, Hfail.
Qed.

(** X15.  [main] touches no file unless the listing and every feed were
    read: if the working directory cannot be listed it reports that, and if
    it can but a feed fails it reports the error of the first failing feed,
    in the order archived, early access, current; in both cases no file
    operation is made. *)
Theorem main_aborts_before_any_file_operation (h : list Op) :
  (∀ msg, ioutil_ReadDir "." = inl msg →
          main outcome filepath_Join http_Get json_Unmarshal ioutil_ReadDir h
          = (h, Some (error_fetching_version_dirs (readdir_error msg)))) ∧
  (∀ entries pre url post x e,
     ioutil_ReadDir "." = inr entries →
     [archiveUrl; eapUrl; currentUrl] = pre ++ url :: post →
     (∀ u, u ∈ pre → (fetchLatestTarVersions http_Get json_Unmarshal u).2 = None) →
     fetchLatestTarVersions http_Get json_Unmarshal url = (x, Some e) →
     main outcome filepath_Join http_Get json_Unmarshal ioutil_ReadDir h
     = (h, Some (error_reading_atlassian_feeds e))).
Proof.
  split.
  - intros msg Hread. rewrite main_run. unfold getDirs. by rewrite Hread.
  - intros entries pre url post x e Hread Hfeeds Hpre Hurl.
    rewrite main_run. unfold getDirs. rewrite Hread.
    unfold getVersions.
    change (feedOrder currentUrl [archiveUrl; eapUrl])
      with [archiveUrl; eapUrl; currentUrl].
    rewrite Hfeeds.
    by rewrite (loop_error _ _ _ _ _ _ _ x e Hpre Hurl).
Qed.

(** X16.  Every package [main] renders into a Dockerfile passed the filter,
    and it is rendered into the file that the call just before opened as the
    Dockerfile of the directory named by the package's own version key,
    which is a directory of the listing whose name does not start with a
    dot. *)
Theorem main_renders_only_matching_packages (h : list Op) :
  ∃ ops,
    (main outcome filepath_Join http_Get json_Unmarshal ioutil_ReadDir h).1 = h ++ ops ∧
    ∀ f p, Template_Execute f p ∈ ops →
      relevant p = true ∧
      (∃ mid post,
         f = length (h ++ mid) ∧
         ops = mid
               ++ [os_OpenFile (filepath_Join (Version.MajorMinor (Version p)) "Dockerfile")
                     [O_CREATE; O_WRONLY; O_TRUNC] (mode 6 4 4);
                   Template_Execute f p]
               ++ post) ∧
      ∃ entries entry,
        ioutil_ReadDir "." = inr entries ∧ entry ∈ entries ∧
        Name entry = Version.MajorMinor (Version p) ∧
        IsDir entry = true ∧ GoStrings.HasPrefix (Name entry) "." = false.
Proof.
  assert (∃ ops, h = h ++ ops ∧ ∀ f p, Template_Execute f p ∈ ops → False) as Hstill.
  { exists []. split; [by rewrite app_nil_r|]. by intros f p ?%elem_of_nil. }
  rewrite main_run. unfold getDirs.
  destruct (ioutil_ReadDir ".") as [msg|entries] eqn:Hread.
  { destruct Hstill as (ops & Hops & Hnone). exists ops. split; [done|].
    intros f p Hin. by destruct (Hnone f p). }
  destruct (getVersions _ _ _ _) as [versions [e|]] eqn:Hversions.
  { destruct Hstill as (ops & Hops & Hnone). exists ops. split; [done|].
    intros f p Hin. by destruct (Hnone f p). }
  assert (map_Forall entryOk (default ∅ versions)) as Hok.
  { destruct versions as [versions|]; [|apply map_Forall_empty].
    eapply loop_entryOk; [apply map_Forall_empty | exact Hversions]. }
  destruct (updateDirs_renders (default ∅ versions) (collectDirs entries) h)
    as (ops & Hops & Hexec).
  exists ops. split; [done|]. intros f p Hin.
  destruct (Hexec f p Hin) as (dir & mid & post & Hdir & Hp & Hf & Hshape).
  destruct (Hok dir p Hp) as [-> Hrel]. split; [done|].
  split; [by exists mid, post|].
  rewrite collectDirs_filter in Hdir.
  apply list_elem_of_fmap in Hdir as (entry & Hname & (Hvisible & Hentry)%list_elem_of_filter).
  destruct Hvisible as [Hisdir Hnodot]. exists entries, entry. by repeat split.
Qed.

(** X17.  A visible directory whose name is not a version key, that is, not
    left unchanged by [MajorMinor], makes every run fail: no feed can give a
    package under such a name. *)
Theorem main_fails_on_directory_that_is_no_key (entries : list FileInfo)
    (entry : FileInfo) (h : list Op) :
  ioutil_ReadDir "." = inr entries → entry ∈ entries →
  IsDir entry = true → GoStrings.HasPrefix (Name entry) "." = false →
  Version.MajorMinor (Name entry) ≠ Name entry →
  ∃ failure,
    (main outcome filepath_Join http_Get json_Unmarshal ioutil_ReadDir h).2 = Some failure.
Proof.
  intros Hread Hentry Hdir Hdot Hkey.
  rewrite main_run. unfold getDirs. rewrite Hread.
  destruct (getVersions _ _ _ _) as [versions [e|]] eqn:Hversions; [by eexists|].
  assert (map_Forall entryOk (default ∅ versions)) as Hok.
  { destruct versions as [versions|]; [|apply map_Forall_empty].
    eapply loop_entryOk; [apply map_Forall_empty | exact Hversions]. }
  destruct (updateAll (default ∅ versions) (collectDirs entries) h)
    as [h' [failure|]] eqn:Hrun; [by eexists|].
  exfalso.
  destruct (updateDirs_success _ _ _ _ (Name entry) Hrun) as (p & _ & _ & Hp & _).
  { rewrite collectDirs_filter. apply list_elem_of_fmap. exists entry.
    split; [done|]. by apply list_elem_of_filter. }
  destruct (Hok _ _ Hp) as [Hname _]. apply Hkey. rewrite Hname.
  apply MajorMinor_of_key.
Qed.

(** X18.  [main] leaves no file open: after it ends, normally or with a
    failure, the files open are those that were open before. *)
Theorem main_leaves_no_file_open (h : list Op) :
  openFiles outcome (main outcome filepath_Join http_Get json_Unmarshal ioutil_ReadDir h).1
  = openFiles outcome h.
Proof.
  rewrite main_run.
  destruct (getDirs _ _) as [dirs [e|]]; [done|].
  destruct (getVersions _ _ _ _) as [versions [e|]]; [done|].
  apply updateDirs_balanced.
Qed.

(** X19.  When [main] ends normally, every visible directory of the listing
    has been updated: its Dockerfile was opened and rendered from a package
    that passed the filter and whose version key is the directory's name,
    and the mode of its entrypoint script was set afterwards. *)
Theorem main_success_updates_every_directory (entries : list FileInfo)
    (entry : FileInfo) (h h' : list Op) :
  main outcome filepath_Join http_Get json_Unmarshal ioutil_ReadDir h = (h', None) →
  ioutil_ReadDir "." = inr entries → entry ∈ entries →
  IsDir entry = true → GoStrings.HasPrefix (Name entry) "." = false →
  ∃ p mid post,
    relevant p = true ∧ Version.MajorMinor (Version p) = Name entry ∧
    h' = (h ++ mid)
         ++ [os_OpenFile (filepath_Join (Name entry) "Dockerfile")
               [O_CREATE; O_WRONLY; O_TRUNC] (mode 6 4 4);
             Template_Execute (length (h ++ mid)) p]
         ++ post ∧
    os_Chmod (filepath_Join (Name entry) "docker-entrypoint.sh") (mode 7 6 4) ∈ post.
Proof.
  intros Hmain Hread Hentry Hdir Hdot.
  rewrite main_run in Hmain. unfold getDirs in Hmain. rewrite Hread in Hmain.
  destruct (getVersions _ _ _ _) as [versions [e|]] eqn:Hversions; [done|].
  assert (map_Forall entryOk (default ∅ versions)) as Hok.
  { destruct versions as [versions|]; [|apply map_Forall_empty].
    eapply loop_entryOk; [apply map_Forall_empty | exact Hversions]. }
  destruct (updateDirs_success _ _ _ _ (Name entry) Hmain)
    as (p & mid & post & Hp & Hh' & Hchmod).
  { rewrite collectDirs_filter. apply list_elem_of_fmap. exists entry.
    split; [done|]. by apply list_elem_of_filter. }
  destruct (Hok _ _ Hp) as [Hname Hrel].
  exists p, mid, post. by rewrite <- Hname.
Qed.

End MainFacts.

(** ** The further properties on the example world *)

Section MoreExamples.

Import Demo DemoFiles.

Local Abbreviation fetch := (fetchLatestTarVersions Demo.http_Get Demo.json_Unmarshal).
Local Abbreviation versionsOf := (getVersions Demo.http_Get Demo.json_Unmarshal).
Local Abbreviation run outcome ReadDir :=
  (main outcome DemoFiles.filepath_Join Demo.http_Get Demo.json_Unmarshal ReadDir).
Local Abbreviation resolved :=
  ({[ "4.3" := setLatest crowd431; "4.2" := crowd420 ]} : gmap string Package).

Lemma getDirs_visible_witness :
  Demo.ioutil_ReadDir "."
  = inr [mkFileInfo ".git" true; mkFileInfo "4.2" true; mkFileInfo "4.3" true;
         mkFileInfo "Dockerfile.tmpl" false; mkFileInfo "releases" true] ∧
  ∃ dirs, getDirs Demo.ioutil_ReadDir "." = (dirs, None) ∧
          dirs `sublist_of` [".git"; "4.2"; "4.3"; "Dockerfile.tmpl"; "releases"].
Proof.
  split; [reflexivity|].
  destruct (getDirs_visible_directories Demo.ioutil_ReadDir "." _ eq_refl)
    as (dirs & Hdirs & _ & Hsub & _).
  exists dirs. by split.
Defined.

Lemma fetch_key_present_witness :
  feedRecords Demo.http_Get Demo.json_Unmarshal archiveUrl archivedRecords ∧
  ∃ m, fetch archiveUrl = (Some m, None) ∧
       (is_Some (m !! "4.2") ↔
        ∃ q, q ∈ archivedRecords ∧ relevant q = true ∧
             Version.MajorMinor (Version q) = "4.2").
Proof.
  split; [exact archived_feed_records|].
  exact (fetch_key_present_iff Demo.http_Get Demo.json_Unmarshal archiveUrl
           archivedRecords "4.2" archived_feed_records).
Defined.

Lemma getVersions_keys_witness :
  (∀ u, u ∈ feedOrder currentUrl [archiveUrl; eapUrl] → (fetch u).2 = None) ∧
  ∃ versions,
    versionsOf currentUrl [archiveUrl; eapUrl] = (Some versions, None) ∧
    (versions !! "9.9" = None ↔
     ∀ u m, u ∈ feedOrder currentUrl [archiveUrl; eapUrl] →
            fetch u = (Some m, None) → m !! "9.9" = None).
Proof.
  split; [exact feeds_all_read|].
  exact (getVersions_keys_are_union Demo.http_Get Demo.json_Unmarshal
           currentUrl [archiveUrl; eapUrl] "9.9" feeds_all_read).
Defined.

Lemma demo_records_unmarked (u : string) (archives : list Package) (a : Package) :
  feedRecords Demo.http_Get Demo.json_Unmarshal u archives → a ∈ archives →
  Latest a = false.
Proof.
  intros (pre & payload & post & _ & _ & _ & Hjson) Ha.
  unfold Demo.json_Unmarshal in Hjson. cbv zeta in Hjson.
  repeat (destruct (String.eqb _ _) in Hjson); try discriminate;
    injection Hjson as <-;
    repeat (apply elem_of_cons in Ha as [-> | Ha]);
    try reflexivity; by apply elem_of_nil in Ha.
Qed.

Lemma getVersions_resolved :
  versionsOf currentUrl [archiveUrl; eapUrl] = (Some resolved, None).
Proof. by vm_compute. Qed.

Lemma getVersions_entry_origin_witness :
  versionsOf currentUrl [archiveUrl; eapUrl] = (Some resolved, None) ∧
  resolved !! "4.2" = Some crowd420 ∧
  ∃ pre url post m q,
    feedOrder currentUrl [archiveUrl; eapUrl] = pre ++ url :: post ∧
    fetch url = (Some m, None) ∧ m !! "4.2" = Some q ∧
    crowd420 = (if String.eqb url currentUrl then setLatest q else q) ∧
    ∀ u m', u ∈ post → fetch u = (Some m', None) → m' !! "4.2" = None.
Proof.
  split; [exact getVersions_resolved|]. split; [by vm_compute|].
  apply (getVersions_entry_origin Demo.http_Get Demo.json_Unmarshal
           currentUrl [archiveUrl; eapUrl] resolved "4.2" crowd420).
  - exact getVersions_resolved.
  - by vm_compute.
Defined.

Lemma getVersions_Latest_witness :
  (∀ u archives a,
     feedRecords Demo.http_Get Demo.json_Unmarshal u archives → a ∈ archives →
     Latest a = false) ∧
  versionsOf currentUrl [archiveUrl; eapUrl] = (Some resolved, None) ∧
  resolved !! "4.2" = Some crowd420 ∧
  (Latest crowd420 = true ↔
   ∃ m, fetch currentUrl = (Some m, None) ∧ is_Some (m !! "4.2")).
Proof.
  split; [exact demo_records_unmarked|].
  split; [exact getVersions_resolved|]. split; [by vm_compute|].
  apply (getVersions_Latest_iff Demo.http_Get Demo.json_Unmarshal
           currentUrl [archiveUrl; eapUrl] resolved "4.2" crowd420).
  - exact demo_records_unmarked.
  - exact getVersions_resolved.
  - by vm_compute.
Defined.

Lemma copyFile_result_witness :
  copy_breaks [] (os_Open "docker-entrypoint.sh") = None ∧
  copy_breaks [os_Open "docker-entrypoint.sh"]
    (os_OpenFile "4.3/docker-entrypoint.sh" [O_CREATE; O_WRONLY; O_TRUNC] (mode 7 6 4))
  = None ∧
  copy_breaks [os_Open "docker-entrypoint.sh";
               os_OpenFile "4.3/docker-entrypoint.sh" [O_CREATE; O_WRONLY; O_TRUNC]
                 (mode 7 6 4)]
    (io_Copy 1%nat 0%nat)
  = Some "unexpected EOF" ∧
  copyFile copy_breaks "docker-entrypoint.sh" "4.3/docker-entrypoint.sh" (mode 7 6 4) []
  = ([os_Open "docker-entrypoint.sh";
      os_OpenFile "4.3/docker-entrypoint.sh" [O_CREATE; O_WRONLY; O_TRUNC] (mode 7 6 4);
      io_Copy 1%nat 0%nat; File_Close 1%nat; File_Close 0%nat],
     Some "unexpected EOF").
Proof.
  do 3 (split; [reflexivity|]).
  apply (proj1 (proj2 (proj2 (copyFile_result copy_breaks "docker-entrypoint.sh"
                                "4.3/docker-entrypoint.sh" (mode 7 6 4) []))));
    reflexivity.
Defined.

Lemma update_success_witness :
  ∃ h',
    update all_succeed DemoFiles.filepath_Join "4.3" (setLatest crowd431) [] = (h', None) ∧
    h' = [os_OpenFile "4.3/Dockerfile" [O_CREATE; O_WRONLY; O_TRUNC] (mode 6 4 4);
          Template_Execute 0%nat (setLatest crowd431);
          os_Open "docker-entrypoint.sh";
          os_OpenFile "4.3/docker-entrypoint.sh" [O_CREATE; O_WRONLY; O_TRUNC] (mode 7 6 4);
          io_Copy 3%nat 2%nat; File_Close 3%nat; File_Close 2%nat;
          os_Chmod "4.3/docker-entrypoint.sh" (mode 7 6 4);
          File_Close 0%nat].
Proof.
  eexists. split; [reflexivity|].
  apply (proj1 (update_success_calls all_succeed DemoFiles.filepath_Join
                  "4.3" (setLatest crowd431) [] _ eq_refl)).
Defined.

Lemma main_missing_version_witness :
  getDirs Demo.ioutil_ReadDir "." = (["4.2"; "4.3"] ++ "releases" :: [], None) ∧
  versionsOf currentUrl [archiveUrl; eapUrl] = (Some resolved, None) ∧
  resolved !! "releases" = None ∧
  ∃ h',
    updateDirs all_succeed DemoFiles.filepath_Join resolved ["4.2"; "4.3"] [] = (h', None) ∧
    run all_succeed Demo.ioutil_ReadDir []
    = (h', Some (cant_find_url_for_version "releases")).
Proof.
  split; [reflexivity|]. split; [exact getVersions_resolved|]. split; [by vm_compute|].
  eexists. split; [by vm_compute|].
  apply (main_stops_at_missing_version all_succeed DemoFiles.filepath_Join
           Demo.http_Get Demo.json_Unmarshal Demo.ioutil_ReadDir
           ["4.2"; "4.3"] "releases" [] resolved []).
  - reflexivity.
  - exact getVersions_resolved.
  - by vm_compute.
  - by vm_compute.
Defined.

Lemma main_failed_update_witness :
  getDirs Demo.ioutil_ReadDir "." = (["4.2"] ++ "4.3" :: ["releases"], None) ∧
  versionsOf currentUrl [archiveUrl; eapUrl] = (Some resolved, None) ∧
  resolved !! "4.3" = Some (setLatest crowd431) ∧
  ∃ h' h'',
    updateDirs disk_full DemoFiles.filepath_Join resolved ["4.2"] [] = (h', None) ∧
    update disk_full DemoFiles.filepath_Join "4.3" (setLatest crowd431) h'
    = (h'', Some "no space left on device") ∧
    run disk_full Demo.ioutil_ReadDir []
    = (h'', Some (error_updating "4.3" "no space left on device")).
Proof.
  split; [reflexivity|]. split; [exact getVersions_resolved|]. split; [by vm_compute|].
  eexists. eexists. split; [by vm_compute|]. split; [by vm_compute|].
  eapply (main_stops_at_failed_update disk_full DemoFiles.filepath_Join
           Demo.http_Get Demo.json_Unmarshal Demo.ioutil_ReadDir
           ["4.2"] "4.3" ["releases"] resolved (setLatest crowd431) []).
  - reflexivity.
  - exact getVersions_resolved.
  - by vm_compute.
  - by vm_compute.
  - by vm_compute.
Defined.

Lemma main_aborts_witness :
  Demo.ioutil_ReadDir "."
  = inr [mkFileInfo ".git" true; mkFileInfo "4.2" true; mkFileInfo "4.3" true;
         mkFileInfo "Dockerfile.tmpl" false; mkFileInfo "releases" true] ∧
  [archiveUrl; eapUrl; currentUrl] = [archiveUrl] ++ eapUrl :: [currentUrl] ∧
  (∀ u, u ∈ [archiveUrl] →
        (fetchLatestTarVersions http_Get_outage Demo.json_Unmarshal u).2 = None) ∧
  fetchLatestTarVersions http_Get_outage Demo.json_Unmarshal eapUrl
  = (None, Some jsonpError) ∧
  main all_succeed DemoFiles.filepath_Join http_Get_outage Demo.json_Unmarshal
    Demo.ioutil_ReadDir []
  = ([], Some (error_reading_atlassian_feeds jsonpError)).
Proof.
  assert (∀ u, u ∈ [archiveUrl] →
            (fetchLatestTarVersions http_Get_outage Demo.json_Unmarshal u).2 = None)
    as Hpre.
  { intros u Hu. apply elem_of_cons in Hu as [-> | Hu]; [by vm_compute|].
    by apply elem_of_nil in Hu. }
  split; [reflexivity|]. split; [reflexivity|]. split; [exact Hpre|].
  split; [by vm_compute|].
  apply (proj2 (main_aborts_before_any_file_operation all_succeed DemoFiles.filepath_Join
                  http_Get_outage Demo.json_Unmarshal Demo.ioutil_ReadDir [])
           _ [archiveUrl] eapUrl [currentUrl] None jsonpError eq_refl).
  - reflexivity.
  - exact Hpre.
  - by vm_compute.
Defined.

Lemma main_no_key_witness :
  mkFileInfo "releases" true
    ∈ [mkFileInfo ".git" true; mkFileInfo "4.2" true; mkFileInfo "4.3" true;
       mkFileInfo "Dockerfile.tmpl" false; mkFileInfo "releases" true] ∧
  Version.MajorMinor "releases" ≠ "releases" ∧
  ∃ failure, (run all_succeed Demo.ioutil_ReadDir []).2 = Some failure.
Proof.
  assert (mkFileInfo "releases" true
            ∈ [mkFileInfo ".git" true; mkFileInfo "4.2" true; mkFileInfo "4.3" true;
               mkFileInfo "Dockerfile.tmpl" false; mkFileInfo "releases" true]) as Hin.
  { do 4 apply list_elem_of_further. apply list_elem_of_here. }
  split; [exact Hin|]. split; [by vm_compute|].
  apply (main_fails_on_directory_that_is_no_key all_succeed DemoFiles.filepath_Join
           Demo.http_Get Demo.json_Unmarshal Demo.ioutil_ReadDir
           _ (mkFileInfo "releases" true) [] eq_refl Hin).
  - reflexivity.
  - reflexivity.
  - by vm_compute.
Defined.

Lemma main_success_witness :
  ∃ h',
    run all_succeed tidy_ReadDir [] = (h', None) ∧
    ∃ p mid post,
      relevant p = true ∧ Version.MajorMinor (Version p) = "4.3" ∧
      h' = ([] ++ mid)
           ++ [os_OpenFile (DemoFiles.filepath_Join "4.3" "Dockerfile")
                 [O_CREATE; O_WRONLY; O_TRUNC] (mode 6 4 4);
               Template_Execute (length ([] ++ mid)) p]
           ++ post ∧
      os_Chmod (DemoFiles.filepath_Join "4.3" "docker-entrypoint.sh") (mode 7 6 4) ∈ post.
Proof.
  eexists. split; [by vm_compute|].
  apply (main_success_updates_every_directory all_succeed DemoFiles.filepath_Join
           Demo.http_Get Demo.json_Unmarshal tidy_ReadDir
           [mkFileInfo ".git" true; mkFileInfo "4.2" true; mkFileInfo "4.3" true;
            mkFileInfo "Dockerfile.tmpl" false; mkFileInfo "update.go" false]
           (mkFileInfo "4.3" true) []).
  - by vm_compute.
  - reflexivity.
  - do 2 apply list_elem_of_further. apply list_elem_of_here.
  - reflexivity.
  - reflexivity.
Defined.

End MoreExamples.
